(** * Undo and redo commands of ckeditor5-undo

    A shallow embedding of [UndoCommand] (undocommand.js) and of the change
    listener that [UndoEngine.init] installs (undoengine.js).  Of the two
    revisions of undocommand.js the later one is embedded: the one with
    [_items], the batch registry, the reversion batch and the move post-fix.

    JavaScript objects that are compared by identity (batches, deltas) carry
    an identity: batches live in a store indexed by reference, deltas are
    values with an identity field.  The document, its history, its selection
    and the position and range primitives belong to the engine package and
    are taken as an interface ([EngineApi]).  So is the sort of the language
    runtime, whose order for a comparator that cannot order an array is the
    implementation's: statements that depend on it rest on its laws
    ([SortLaws]) and hold for every runtime that meets them. *)

From stdpp Require Import gmap strings list fin_maps fin_sets sorting.

Local Open Scope Z_scope.

(** ** Data model *)

(** Modelled from the spec: a position's root identifier.  The document owns
    named roots and the graveyard; a detached fragment is a root that does
    not belong to the document. *)
Inductive Root :=
  | DocumentRoot (name : string)
  | Graveyard
  | DetachedFragment (id : nat).

#[global] Instance Root_eq_dec : EqDecision Root.
Proof. solve_decision. Defined.

(** Modelled from the spec: a position is a root and a path into its tree;
    [offset] is the last entry of the path. *)
Record Position := mkPosition { root : Root; path : list Z }.

#[global] Instance Position_eq_dec : EqDecision Position.
Proof. solve_decision. Defined.

Definition offset (p : Position) : option Z := last (path p).

(** [p.offset += n].  On an empty path the getter is undefined and the
    setter writes no array element: the path stays as it is. *)
Definition add_offset (n : Z) (p : Position) : Position :=
  match offset p with
  | Some o => {| root := root p; path := removelast (path p) ++ [o + n] |}
  | None => p
  end.

Record Range := mkRange { start : Position; end_ : Position }.

#[global] Instance Range_eq_dec : EqDecision Range.
Proof. solve_decision. Defined.

(** The operation types 'move', 'remove' and 'reinsert', which share the
    geometry of a move. *)
Inductive MoveType := TypeMove | TypeRemove | TypeReinsert.

#[global] Instance MoveType_eq_dec : EqDecision MoveType.
Proof. solve_decision. Defined.

(** Modelled from the spec: the operation variants the command inspects.
    An insert operation exposes [position] and [nodeList.length]; move,
    remove and reinsert expose [sourcePosition], [howMany],
    [targetPosition] and [movedRangeStart]; any other operation has neither. *)
Inductive Operation :=
  | InsertOperation (position : Position) (nodeList_length : Z)
  | MoveOperation (type : MoveType) (sourcePosition : Position) (howMany : Z)
      (targetPosition : Position) (movedRangeStart : Position)
  | OtherOperation (type : string).

#[global] Instance Operation_eq_dec : EqDecision Operation.
Proof. solve_decision. Defined.

(** [batch.type]: [undefined] or a tag. *)
Abbreviation BatchType := (option string).

Abbreviation BatchRef := nat.
Abbreviation DeltaId := nat.

(** Modelled from the spec: a delta.  [did] is the object's identity (the
    key under which a WeakMap files it), [instanceofMoveDelta] the outcome
    of [delta instanceof MoveDelta], [delta_batch] the owning batch, set by
    [Batch.addDelta]. *)
Record Delta := mkDelta {
  did : DeltaId;
  instanceofMoveDelta : bool;
  operations : list Operation;
  baseVersion : Z;
  delta_batch : option BatchRef
}.

#[global] Instance Delta_eq_dec : EqDecision Delta.
Proof. solve_decision. Defined.

(** Modelled from the spec: a batch object, as [new Batch( doc )] and
    [addDelta] leave it. *)
Record Batch := mkBatch { batch_type : BatchType; deltas : list Delta }.

#[global] Instance Batch_eq_dec : EqDecision Batch.
Proof. solve_decision. Defined.

Definition new_Batch : Batch := {| batch_type := None; deltas := [] |}.

(** The selection state saved with a batch. *)
Record SelectionState := mkSelectionState {
  ranges : list Range;
  isBackward : bool
}.

(** An entry of [_items]: [{ batch, selection }]. *)
Record Item := mkItem { item_batch : BatchRef; selection : SelectionState }.

(** ** The engine interface

    Everything the command calls on [this.editor.document] and on the model
    classes.  The document state is threaded explicitly.  An operation
    reaches its delta through [operation.delta]; the embedding passes that
    delta to [applyOperation] next to the operation.  [getDeltas] and
    [getTransformedDelta] return sequences that can be traversed more than
    once.  [sort] is [Array.prototype.sort( comparefn )] of the language
    runtime the editor runs on, on arrays of ranges: the order it leaves is
    the implementation's wherever the comparator does not settle it. *)
Class EngineApi := {
  Doc : Type;
  applyOperation : Operation → Delta → Doc → Doc;
  selection_getRanges : Doc → list Range;
  selection_isBackward : Doc → bool;
  selection_setRanges : list Range → bool → Doc → Doc;
  history_getTransformedDelta : Doc → Delta → list Delta;
  history_getDeltas : Doc → Z → list Delta;
  getReversed : Delta → Delta;
  isEqual : Position → Position → bool;
  isBefore : Position → Position → bool;
  isAfter : Position → Position → bool;
  isTouching : Position → Position → bool;
  getTransformedByInsertion : Range → Position → Z → bool → bool → list Range;
  getTransformedByMove :
    Range → Position → Position → Z → bool → bool → list Range;
  sort : (Range → Range → Z) → list Range → list Range
}.

(** ** What the language promises of [sort]

    The array holds the same elements afterwards, whatever the comparator
    answers.  Their order is the comparator's only where the comparator
    orders the array: no element twice, of any two elements exactly one
    sorts before the other, and transitively so.  For any other array the
    order is left to the implementation, and nothing is assumed of it. *)
Definition sorts_before {A} (comparefn : A → A → Z) (a b : A) : Prop :=
  comparefn a b < 0 ∧ 0 < comparefn b a.

Definition orders {A} (comparefn : A → A → Z) (l : list A) : Prop :=
  NoDup l
  ∧ Forall (λ a, Forall (λ b,
      a = b ∨ sorts_before comparefn a b ∨ sorts_before comparefn b a) l) l
  ∧ Forall (λ a, Forall (λ b, Forall (λ c,
      comparefn a b < 0 → comparefn b c < 0 → comparefn a c < 0) l) l) l.

(** Every element sorts before every element to its right. *)
Definition ascending {A} (comparefn : A → A → Z) (l : list A) : Prop :=
  StronglySorted (λ a b, comparefn a b < 0) l.

Class SortLaws `{EngineApi} : Prop := {
  sort_permutes : ∀ comparefn l, sort comparefn l ≡ₚ l;
  sort_ascends : ∀ comparefn l,
    orders comparefn l → ascending comparefn (sort comparefn l)
}.

(** The part of the program state outside the commands: the document and
    the store of batch objects. *)
Record World `{EngineApi} := mkWorld {
  doc : Doc;
  batches : gmap BatchRef Batch
}.

(** State of one [UndoCommand].  [isEnabled] is what [refreshState] keeps
    up to date; [fired] lists the batches the command fired 'revert' for,
    oldest first. *)
Record UndoCommand := mkUndoCommand {
  _items : list Item;
  _batchRegistry : gset BatchRef;
  _type : BatchType;
  _originalDeltas : gmap DeltaId Delta;
  isEnabled : bool;
  fired : list BatchRef
}.

(** [new UndoCommand( editor, type )]. *)
Definition constructor (type : BatchType) : UndoCommand :=
  {| _items := []; _batchRegistry := ∅; _type := type;
     _originalDeltas := ∅; isEnabled := false; fired := [] |}.

(** ** Exceptions and state

    Property reads on [undefined] raise a TypeError.  A computation either
    completes normally or throws; the state reached so far is kept in both
    cases, as it is when a JavaScript exception unwinds. *)
Inductive Error := TypeError.

Inductive Completion (A : Type) :=
  | Normal (a : A)
  | Throw (e : Error).
Arguments Normal {A} a.
Arguments Throw {A} e.

#[global] Instance Completion_ret : MRet Completion := @Normal.
#[global] Instance Completion_bind : MBind Completion :=
  λ A B f m, match m with Normal a => f a | Throw e => Throw e end.

(** [o] read where the source needs it to be an object. *)
Definition defined {A} (o : option A) : Completion A :=
  match o with Some a => Normal a | None => Throw TypeError end.

Section Exec.
Context `{EngineApi}.

Record State := mkState { cmd : UndoCommand; world : World }.

Definition Exec (A : Type) : Type := State → Completion A * State.

Definition ret {A} (a : A) : Exec A := λ s, (Normal a, s).
Definition bind {A B} (m : Exec A) (k : A → Exec B) : Exec B :=
  λ s, match m s with
       | (Normal a, s') => k a s'
       | (Throw e, s') => (Throw e, s')
       end.
Definition lift {A} (c : Completion A) : Exec A := λ s, (c, s).
Definition get : Exec State := λ s, (Normal s, s).
Definition modify_cmd (f : UndoCommand → UndoCommand) : Exec unit :=
  λ s, (Normal tt, {| cmd := f (cmd s); world := world s |}).
Definition modify_world (f : World → World) : Exec unit :=
  λ s, (Normal tt, {| cmd := cmd s; world := f (world s) |}).
Definition modify_doc (f : Doc → Doc) : Exec unit :=
  modify_world (λ w, {| doc := f (doc w); batches := batches w |}).

End Exec.

Notation "'let*' x := m 'in' k" := (bind m (λ x, k))
  (at level 10, x pattern, m at level 100, k at level 200,
   format "'[v' 'let*'  x  :=  m  'in' '/' k ']'").
Notation "m ;;; k" := (bind m (λ _, k))
  (at level 100, right associativity, format "'[v' m ;;; '/' k ']'").

Section Command.
Context `{EngineApi}.

(** [for ( let x of l ) body]. *)
Fixpoint forOf {A} (l : list A) (body : A → Exec unit) : Exec unit :=
  match l with
  | [] => ret tt
  | x :: l' => body x ;;; forOf l' body
  end.

(** ** Batch objects in the store

    References never dangle in the source.  A reference the store does not
    hold yet reads as the batch [new Batch()] creates. *)
Definition batch_at (w : World) (b : BatchRef) : Batch :=
  default new_Batch (batches w !! b).

(** [new Batch( doc )]: a reference no existing batch has. *)
Definition alloc_Batch (w : World) : BatchRef * World :=
  let r := fresh (dom (batches w)) in
  (r, {| doc := doc w; batches := <[r := new_Batch]> (batches w) |}).

Definition create_Batch : Exec BatchRef :=
  λ s, (Normal (alloc_Batch (world s)).1,
        {| cmd := cmd s; world := (alloc_Batch (world s)).2 |}).

(** [batch.type = t]. *)
Definition set_type (b : BatchRef) (t : BatchType) (w : World) : World :=
  {| doc := doc w;
     batches := <[b := {| batch_type := t; deltas := deltas (batch_at w b) |}]>
                  (batches w) |}.

(** [batch.addDelta( delta )]: sets [delta.batch], pushes the delta. *)
Definition with_batch (b : BatchRef) (d : Delta) : Delta :=
  {| did := did d; instanceofMoveDelta := instanceofMoveDelta d;
     operations := operations d; baseVersion := baseVersion d;
     delta_batch := Some b |}.

Definition addDelta (b : BatchRef) (d : Delta) (w : World) : World :=
  {| doc := doc w;
     batches := <[b := {| batch_type := batch_type (batch_at w b);
                          deltas := deltas (batch_at w b) ++ [with_batch b d] |}]>
                  (batches w) |}.

(** ** UndoCommand: the stack *)

(** [_checkEnabled()]. *)
Definition _checkEnabled (c : UndoCommand) : bool :=
  bool_decide (0 < Z.of_nat (length (_items c))).

(** [refreshState()] of the Command base class: re-evaluates [isEnabled]. *)
Definition refreshState (c : UndoCommand) : UndoCommand :=
  {| _items := _items c; _batchRegistry := _batchRegistry c; _type := _type c;
     _originalDeltas := _originalDeltas c; isEnabled := _checkEnabled c;
     fired := fired c |}.

(** [addBatch( batch )]. *)
Definition addBatch (batch : BatchRef) (w : World) (c : UndoCommand)
  : UndoCommand :=
  if negb (bool_decide (batch ∈ _batchRegistry c)) then
    let selection :=
      {| ranges := selection_getRanges (doc w);
         isBackward := selection_isBackward (doc w) |} in
    refreshState
      {| _items := _items c ++ [ {| item_batch := batch; selection := selection |} ];
         _batchRegistry := {[ batch ]} ∪ _batchRegistry c;
         _type := _type c; _originalDeltas := _originalDeltas c;
         isEnabled := isEnabled c; fired := fired c |}
  else c.

(** [clearStack()]. *)
Definition clearStack (c : UndoCommand) : UndoCommand :=
  refreshState
    {| _items := []; _batchRegistry := _batchRegistry c; _type := _type c;
       _originalDeltas := _originalDeltas c; isEnabled := isEnabled c;
       fired := fired c |}.

(** ** The move post-fix *)

(** Accessors of an operation object; [None] is [undefined]. *)
Definition op_targetPosition (o : Operation) : option Position :=
  match o with MoveOperation _ _ _ t _ => Some t | _ => None end.

Definition op_howMany (o : Operation) : option Z :=
  match o with MoveOperation _ _ n _ _ => Some n | _ => None end.

(** [op.sourcePosition || op.position]. *)
Definition sourcePosition_or_position (o : Operation) : option Position :=
  match o with
  | MoveOperation _ s _ _ _ => Some s
  | InsertOperation p _ => Some p
  | OtherOperation _ => None
  end.

(** [op.targetPosition.offset += n; op.movedRangeStart.offset += n]. *)
Definition shift_move (n : Z) (o : Operation) : Operation :=
  match o with
  | MoveOperation ty s k t m => MoveOperation ty s k (add_offset n t) (add_offset n m)
  | _ => o
  end.

(** The same update seen from the delta that holds the operation at
    index 0. *)
Definition shift_delta (n : Z) (d : Delta) : Delta :=
  {| did := did d; instanceofMoveDelta := instanceofMoveDelta d;
     operations := match operations d with
                   | o :: os => shift_move n o :: os
                   | [] => []
                   end;
     baseVersion := baseVersion d; delta_batch := delta_batch d |}.

(** [!hDelta.batch || ( hDelta.batch.type != 'undo' && hDelta.batch.type != 'redo' )]. *)
Definition not_a_reversion (w : World) (hDelta : Delta) : bool :=
  match delta_batch hDelta with
  | None => true
  | Some b =>
      negb (bool_decide (batch_type (batch_at w b) = Some "undo"))
      && negb (bool_decide (batch_type (batch_at w b) = Some "redo"))
  end.

(** Body of the inner loop of [postFix] for one [hDelta]; the result is
    [upDelta] after the iteration.  The position methods are taken to throw
    when they are handed [undefined]. *)
Definition postFix_inner (originalDeltas : gmap DeltaId Delta) (w : World)
    (upDelta hDelta : Delta) : Completion Delta :=
  if negb (instanceofMoveDelta hDelta) then Normal upDelta
  else if not_a_reversion w hDelta then Normal upDelta
  else
    let upOp := operations upDelta !! 0%nat in
    let hOp := operations hDelta !! 0%nat in
    upOp ← defined upOp;
    upTarget ← defined (op_targetPosition upOp);
    hOp ← defined hOp;
    hTarget ← defined (op_targetPosition hOp);
    if isEqual upTarget hTarget then
      let origUpDelta := originalDeltas !! did upDelta in
      let origHDelta := originalDeltas !! did hDelta in
      match origUpDelta, origHDelta with
      | Some origUpDelta, Some origHDelta =>
          origUpOp ← defined (operations origUpDelta !! 0%nat);
          origHOp ← defined (operations origHDelta !! 0%nat);
          upPos ← defined (sourcePosition_or_position origUpOp);
          hPos ← defined (sourcePosition_or_position origHOp);
          if isAfter upPos hPos then
            howMany ← defined (op_howMany hOp);
            Normal (shift_delta howMany upDelta)
          else Normal upDelta
      | _, _ => Normal upDelta
      end
    else Normal upDelta.

(** [for ( let hDelta of historyDeltas )] for one [upDelta]. *)
Fixpoint postFix_scan (originalDeltas : gmap DeltaId Delta) (w : World)
    (upDelta : Delta) (historyDeltas : list Delta) : Completion Delta :=
  match historyDeltas with
  | [] => Normal upDelta
  | hDelta :: rest =>
      upDelta' ← postFix_inner originalDeltas w upDelta hDelta;
      postFix_scan originalDeltas w upDelta' rest
  end.

(** [postFix( deltas, historyDeltas )]; the result lists [deltas] after the
    call. *)
Fixpoint postFix (originalDeltas : gmap DeltaId Delta) (w : World)
    (deltas historyDeltas : list Delta) : Completion (list Delta) :=
  match deltas with
  | [] => Normal []
  | upDelta :: rest =>
      upDelta' ←
        (if negb (instanceofMoveDelta upDelta) then Normal upDelta
         else postFix_scan originalDeltas w upDelta historyDeltas);
      rest' ← postFix originalDeltas w rest historyDeltas;
      Normal (upDelta' :: rest')
  end.

(** ** Selection transformation *)

(** The [switch ( operation.type )] of the transformation loop: [None] is
    a [result] left [undefined]. *)
Definition transform_result (operation : Operation) (r : Range)
  : option (list Range) :=
  match operation with
  | InsertOperation position nodeList_length =>
      Some (getTransformedByInsertion r position nodeList_length true false)
  | MoveOperation _ sourcePosition howMany targetPosition _ =>
      Some (getTransformedByMove r sourcePosition targetPosition howMany true false)
  | OtherOperation _ => None
  end.

(** [for ( let t = 0; t < transformed.length; t++ )] for one operation.
    [done] holds [transformed[0..t-1]], the second list [transformed[t..]];
    [splice( t, 1, ...result )] followed by [t = t + result.length - 1]
    moves the pieces of [result] to the left of the index. *)
Fixpoint transform_by_operation (operation : Operation)
    (done todo : list Range) : list Range :=
  match todo with
  | [] => done
  | r :: todo' =>
      match transform_result operation r with
      | Some result => transform_by_operation operation (done ++ result) todo'
      | None => transform_by_operation operation (done ++ [r]) todo'
      end
  end.

(** The loops over [deltas] and over [delta.operations]. *)
Definition transform_by_deltas (deltas : list Delta) (transformed : list Range)
  : list Range :=
  fold_left
    (λ transformed delta,
       fold_left (λ transformed operation,
                    transform_by_operation operation [] transformed)
                 (operations delta) transformed)
    deltas transformed.

(** The comparator handed to [sort]: -1 or 1, never 0. *)
Definition compare_starts (a b : Range) : Z :=
  if isBefore (start a) (start b) then -1 else 1.

(** The merging loop [for ( let i = 1; i < transformed.length; i++ )]:
    [a] is [transformed[ i - 1 ]], the list is [transformed[ i.. ]]. *)
Fixpoint merge_touching_from (a : Range) (rest : list Range) : list Range :=
  match rest with
  | [] => [a]
  | b :: rest' =>
      if isTouching (end_ a) (start b)
      then merge_touching_from {| start := start a; end_ := end_ b |} rest'
      else a :: merge_touching_from b rest'
  end.

Definition merge_touching (transformed : list Range) : list Range :=
  match transformed with
  | [] => []
  | a :: rest => merge_touching_from a rest
  end.

(** [range.start.root != this.editor.document.graveyard]. *)
Definition not_in_graveyard (range : Range) : bool :=
  negb (bool_decide (root (start range) = Graveyard)).

(** Everything the loop body does for one [originalRange]: the value of
    [transformedRange], [None] when [find] returns [undefined]. *)
Definition transformedRange (deltas : list Delta) (originalRange : Range)
  : option Range :=
  let transformed := transform_by_deltas deltas [originalRange] in
  let transformed := sort compare_starts transformed in
  let transformed := merge_touching transformed in
  find not_in_graveyard transformed.

(** [for ( let originalRange of ranges )], collecting [transformedRanges]. *)
Fixpoint collect_transformedRanges (deltas : list Delta) (ranges : list Range)
    (transformedRanges : list Range) : list Range :=
  match ranges with
  | [] => transformedRanges
  | originalRange :: rest =>
      match transformedRange deltas originalRange with
      | Some r => collect_transformedRanges deltas rest (transformedRanges ++ [r])
      | None => collect_transformedRanges deltas rest transformedRanges
      end
  end.

(** [if ( transformedRanges.length ) selection.setRanges( ... )]. *)
Definition restore_selection (transformedRanges : list Range)
    (selectionState : SelectionState) (d : Doc) : Doc :=
  if bool_decide (length transformedRanges ≠ 0%nat)
  then selection_setRanges transformedRanges (isBackward selectionState) d
  else d.

(** ** UndoCommand: [_doExecute] *)

(** [array.findIndex( p )]: the first index whose element satisfies [p],
    -1 when there is none. *)
Fixpoint findIndex {A} (p : A → bool) (l : list A) : Z :=
  match l with
  | [] => -1
  | x :: l' => if p x then 0 else
                 let i := findIndex p l' in
                 if bool_decide (i = -1) then -1 else i + 1
  end.

(** [array.splice( start, 1 )[ 0 ]] and the array it leaves.  A negative
    [start] counts from the end of the array. *)
Definition splice_one {A} (start : Z) (l : list A) : option A * list A :=
  let len := Z.of_nat (length l) in
  let actualStart :=
    Z.to_nat (if bool_decide (start < 0) then Z.max (len + start) 0
              else Z.min start len) in
  (l !! actualStart, take actualStart l ++ drop (S actualStart) l).

(** [this._originalDeltas.set( delta, undoDelta )]. *)
Definition originalDeltas_set (delta undoDelta : Delta) (c : UndoCommand)
  : UndoCommand :=
  {| _items := _items c; _batchRegistry := _batchRegistry c; _type := _type c;
     _originalDeltas := <[did delta := undoDelta]> (_originalDeltas c);
     isEnabled := isEnabled c; fired := fired c |}.

(** [this._batchRegistry.delete( batch )]; deleting [null] removes nothing. *)
Definition batchRegistry_delete (batch : option BatchRef) (c : UndoCommand)
  : UndoCommand :=
  {| _items := _items c;
     _batchRegistry := match batch with
                       | Some b => _batchRegistry c ∖ {[ b ]}
                       | None => _batchRegistry c
                       end;
     _type := _type c; _originalDeltas := _originalDeltas c;
     isEnabled := isEnabled c; fired := fired c |}.

Definition set_items (items : list Item) (c : UndoCommand) : UndoCommand :=
  {| _items := items; _batchRegistry := _batchRegistry c; _type := _type c;
     _originalDeltas := _originalDeltas c; isEnabled := isEnabled c;
     fired := fired c |}.

(** [this.fire( 'revert', undoBatch )]. *)
Definition fire_revert (undoBatch : BatchRef) (c : UndoCommand) : UndoCommand :=
  {| _items := _items c; _batchRegistry := _batchRegistry c; _type := _type c;
     _originalDeltas := _originalDeltas c; isEnabled := isEnabled c;
     fired := fired c ++ [undoBatch] |}.

(** The first statements of [_doExecute]: they compute [batchIndex], take
    [undoItem] out of [_items] and update the registry. *)
Definition batchIndex (batch : option BatchRef) (items : list Item) : Z :=
  match batch with
  | Some b => findIndex (λ a, bool_decide (item_batch a = b)) items
  | None => Z.of_nat (length items) - 1
  end.

Definition take_undoItem (batch : option BatchRef) : Exec (option Item) :=
  let* s := get in
  let batchIndex := batchIndex batch (_items (cmd s)) in
  let '(undoItem, items) := splice_one batchIndex (_items (cmd s)) in
  modify_cmd (set_items items) ;;;
  modify_cmd (batchRegistry_delete batch) ;;;
  ret undoItem.

(** Body of [for ( let delta of updatedDeltas )], second loop: the delta
    joins the reversion batch and its operations are applied. *)
Definition add_and_apply (reversionBatch : BatchRef) (delta : Delta) : Exec unit :=
  modify_world (addDelta reversionBatch delta) ;;;
  let delta := with_batch reversionBatch delta in
  forOf (operations delta) (λ operation, modify_doc (applyOperation operation delta)).

(** Body of [for ( let undoDelta of undoDeltas )]. *)
Definition revert_delta (reversionBatch : BatchRef) (undoDelta : Delta) : Exec unit :=
  let undoDeltaReversed := getReversed undoDelta in
  let* s := get in
  let updatedDeltas := history_getTransformedDelta (doc (world s)) undoDeltaReversed in
  forOf updatedDeltas (λ delta, modify_cmd (originalDeltas_set delta undoDelta)) ;;;
  let* s := get in
  let* updatedDeltas :=
    lift (postFix (_originalDeltas (cmd s)) (world s) updatedDeltas
            (history_getDeltas (doc (world s)) (baseVersion undoDelta))) in
  forOf updatedDeltas (add_and_apply reversionBatch).

(** The rest of the callback given to [enqueueChanges]: the saved selection
    is transformed and restored. *)
Definition transform_selection (undoItem : Item) : Exec unit :=
  let selectionState := selection undoItem in
  let ranges := ranges selectionState in
  let* s := get in
  let* first := lift (defined (deltas (batch_at (world s) (item_batch undoItem)) !! 0%nat)) in
  let deltas := history_getDeltas (doc (world s)) (baseVersion first) in
  let transformedRanges := collect_transformedRanges deltas ranges [] in
  modify_doc (restore_selection transformedRanges selectionState).

(** [_doExecute( batch = null )].  [enqueueChanges] is entered from outside
    any other change block, so its callback runs at once. *)
Definition _doExecute (batch : option BatchRef) : Exec unit :=
  let* undoItem := take_undoItem batch in
  let* undoItem := lift (defined undoItem) in
  let undoBatch := item_batch undoItem in
  let* s := get in
  let undoDeltas := reverse (deltas (batch_at (world s) undoBatch)) in
  let* reversionBatch := create_Batch in
  modify_world (set_type reversionBatch (_type (cmd s))) ;;;
  forOf undoDeltas (revert_delta reversionBatch) ;;;
  transform_selection undoItem ;;;
  modify_cmd refreshState ;;;
  modify_cmd (fire_revert undoBatch).

End Command.

(** The batches on a command's stack, bottom first. *)
Definition stack_batches (c : UndoCommand) : list BatchRef :=
  item_batch <$> _items c.

(** ** UndoEngine *)

Section Engine.
Context `{EngineApi}.

Record UndoEngine := mkUndoEngine {
  _undoCommand : UndoCommand;
  _redoCommand : UndoCommand
}.

(** The commands [init()] creates. *)
Definition init : UndoEngine :=
  {| _undoCommand := constructor (Some "undo");
     _redoCommand := constructor (Some "redo") |}.

(** The listener [init()] attaches to the document's 'change' event, for a
    change that carries [batch]. *)
Definition on_change (batch : BatchRef) (w : World) (e : UndoEngine) : UndoEngine :=
  let type := batch_type (batch_at w batch) in
  if bool_decide (type = None) then
    {| _undoCommand := addBatch batch w (_undoCommand e);
       _redoCommand := clearStack (_redoCommand e) |}
  else if bool_decide (type = Some "undo") then
    {| _undoCommand := _undoCommand e;
       _redoCommand := addBatch batch w (_redoCommand e) |}
  else if bool_decide (type = Some "redo") then
    {| _undoCommand := addBatch batch w (_undoCommand e);
       _redoCommand := _redoCommand e |}
  else e.

(** Whether an operation touches a root of the document (the graveyard is
    one of them) rather than a detached fragment. *)
Definition is_document_root (r : Root) : bool :=
  match r with DetachedFragment _ => false | _ => true end.

Definition isDocumentOperation (o : Operation) : bool :=
  match o with
  | InsertOperation p _ => is_document_root (root p)
  | MoveOperation _ s _ t _ => is_document_root (root s) || is_document_root (root t)
  | OtherOperation _ => true
  end.

(** A batch whose every operation targets only a detached fragment. *)
Definition non_document_batch (b : Batch) : bool :=
  forallb (λ d, forallb (λ o, negb (isDocumentOperation o)) (operations d)) (deltas b).

End Engine.

(** ** A reference document: flat text

    One implementation of the engine interface, small enough to evaluate:
    a document is its history and its selection, positions are compared
    path by path, and the history rebases a delta by shifting its positions
    past the moves recorded since the delta's base version. *)
Module FlatText.

Record FlatDoc := mkFlatDoc {
  history : list Delta;
  sel_ranges : list Range;
  sel_backward : bool
}.

Fixpoint path_before (p q : list Z) : bool :=
  match p, q with
  | [], [] => false
  | [], _ :: _ => true
  | _ :: _, [] => false
  | x :: p', y :: q' =>
      bool_decide (x < y) || (bool_decide (x = y) && path_before p' q')
  end.

Definition before (p q : Position) : bool :=
  bool_decide (root p = root q) && path_before (path p) (path q).

(** history.addOperation: a delta enters the history with its first
    operation. *)
Definition apply (o : Operation) (d : Delta) (doc : FlatDoc) : FlatDoc :=
  if bool_decide (did d ∈ did <$> history doc) then doc
  else {| history := history doc ++ [d]; sel_ranges := sel_ranges doc;
          sel_backward := sel_backward doc |}.

Definition set_ranges (rs : list Range) (backward : bool) (doc : FlatDoc) : FlatDoc :=
  {| history := history doc; sel_ranges := rs; sel_backward := backward |}.

Definition deltas_since (doc : FlatDoc) (v : Z) : list Delta :=
  filter (λ d, v ≤ baseVersion d) (history doc).

(** A position after [howMany] nodes left [source] and arrived at [target]. *)
Definition position_by_move (source : Position) (howMany : Z) (target : Position)
    (p : Position) : Position :=
  let p1 := if before source p then add_offset (- howMany) p else p in
  if before target p1 then add_offset howMany p1 else p1.

Definition position_by_operation (o : Operation) (p : Position) : Position :=
  match o with
  | InsertOperation q n => if before q p then add_offset n p else p
  | MoveOperation _ s n t _ => position_by_move s n t p
  | OtherOperation _ => p
  end.

Definition position_by_deltas (ds : list Delta) (p : Position) : Position :=
  fold_left (λ p d, fold_left (λ p o, position_by_operation o p) (operations d) p)
            ds p.

Definition operation_by_deltas (ds : list Delta) (o : Operation) : Operation :=
  match o with
  | InsertOperation q n => InsertOperation (position_by_deltas ds q) n
  | MoveOperation ty s n t m =>
      MoveOperation ty (position_by_deltas ds s) n (position_by_deltas ds t)
        (position_by_deltas ds m)
  | OtherOperation ty => OtherOperation ty
  end.

(** The rebased delta is a new object, based on the tip of the history. *)
Definition transformed_delta (doc : FlatDoc) (d : Delta) : list Delta :=
  let since := deltas_since doc (baseVersion d) in
  [ {| did := did d + 1;
       instanceofMoveDelta := instanceofMoveDelta d;
       operations := operation_by_deltas since <$> operations d;
       baseVersion := Z.of_nat (length (history doc));
       delta_batch := None |} ].

Definition graveyard_position : Position := {| root := Graveyard; path := [0] |}.

Definition reversed_operation (o : Operation) : Operation :=
  match o with
  | InsertOperation q n => MoveOperation TypeRemove q n graveyard_position graveyard_position
  | MoveOperation ty s n t m => MoveOperation ty m n s s
  | OtherOperation ty => OtherOperation ty
  end.

(** The reversed delta is a new object with the operations inverted, last
    first. *)
Definition reversed (d : Delta) : Delta :=
  {| did := did d + 1;
     instanceofMoveDelta :=
       match operations d with
       | [InsertOperation _ _] | [MoveOperation _ _ _ _ _] => true
       | _ => false
       end;
     operations := reverse (reversed_operation <$> operations d);
     baseVersion := baseVersion d + 1;
     delta_batch := None |}.

Definition range_by_insertion (r : Range) (q : Position) (n : Z)
    (spread _isSticky : bool) : list Range :=
  if spread && before (start r) q && before q (end_ r)
  then [ {| start := start r; end_ := q |};
         {| start := add_offset n q; end_ := add_offset n (end_ r) |} ]
  else [ {| start := position_by_operation (InsertOperation q n) (start r);
            end_ := position_by_operation (InsertOperation q n) (end_ r) |} ].

(** A range inside the moved nodes travels with them. *)
Definition range_by_move (r : Range) (s t : Position) (n : Z)
    (spread _isSticky : bool) : list Range :=
  let inside p := negb (before p s) && negb (before (add_offset n s) p) in
  if inside (start r) && inside (end_ r)
  then
    let relocate p :=
      {| root := root t;
         path := path (add_offset (default 0 (offset p) - default 0 (offset s)) t) |} in
    [ {| start := relocate (start r); end_ := relocate (end_ r) |} ]
  else [ {| start := position_by_move s n t (start r);
            end_ := position_by_move s n t (end_ r) |} ].

(** The sort of the reference document, an insertion sort: an element
    travels left past every neighbour [tmp] with
    [comparefn( tmp, element ) > 0].  [sorted_rev] is the sorted prefix,
    last element first. *)
Fixpoint sort_insert {A} (comparefn : A → A → Z) (element : A)
    (sorted_rev : list A) : list A :=
  match sorted_rev with
  | [] => [element]
  | tmp :: rest =>
      if bool_decide (0 < comparefn tmp element)
      then tmp :: sort_insert comparefn element rest
      else element :: tmp :: rest
  end.

Definition insertion_sort {A} (comparefn : A → A → Z) (l : list A) : list A :=
  reverse (fold_left (λ sorted_rev element,
                        sort_insert comparefn element sorted_rev) l []).

#[export] Instance api : EngineApi := {|
  Doc := FlatDoc;
  applyOperation := apply;
  selection_getRanges := sel_ranges;
  selection_isBackward := sel_backward;
  selection_setRanges := set_ranges;
  history_getTransformedDelta := transformed_delta;
  history_getDeltas := deltas_since;
  getReversed := reversed;
  isEqual := λ p q, bool_decide (p = q);
  isBefore := before;
  isAfter := λ p q, before q p;
  isTouching := λ p q, bool_decide (p = q);
  getTransformedByInsertion := range_by_insertion;
  getTransformedByMove := range_by_move;
  sort := insertion_sort
|}.

End FlatText.

(** ** Vocabulary of the statements *)

Section Vocabulary.
Context `{EngineApi}.

(** The calls a command receives from its owner and from the editor, each
    with the world it is made in. *)
Inductive Call :=
  | Call_addBatch (batch : BatchRef) (w : World)
  | Call_clearStack
  | Call_doExecute (batch : option BatchRef) (w : World).

Definition run_call (c : UndoCommand) (call : Call) : UndoCommand :=
  match call with
  | Call_addBatch batch w => addBatch batch w c
  | Call_clearStack => clearStack c
  | Call_doExecute batch w => cmd (_doExecute batch {| cmd := c; world := w |}).2
  end.

Definition run_calls (calls : list Call) (c : UndoCommand) : UndoCommand :=
  fold_left run_call calls c.

(** The identities handed to [addBatch] in a sequence of calls. *)
Definition recorded (calls : list Call) : gset BatchRef :=
  list_to_set (omap (λ call, match call with
                             | Call_addBatch batch _ => Some batch
                             | _ => None
                             end) calls).

(** The item [_doExecute( batch )] takes from the stack of [c], and [c]
    once the item is taken and the registry updated. *)
Definition undoItem_of (batch : option BatchRef) (c : UndoCommand) : option Item :=
  (splice_one (batchIndex batch (_items c)) (_items c)).1.

Definition without_undoItem (batch : option BatchRef) (c : UndoCommand) : UndoCommand :=
  batchRegistry_delete batch
    (set_items (splice_one (batchIndex batch (_items c)) (_items c)).2 c).

(** The conflict the post-fix looks for, in the words of its description:
    [h] is a move delta of an 'undo' or 'redo' batch, the moves of [u] and
    [h] have equal target positions, the deltas that [u] and [h] were made
    from are known, and the source (or insert) position of the one behind
    [u] is after that of the one behind [h].  [howMany] is the number of
    nodes [h] moves. *)
Definition move_conflict (originalDeltas : gmap DeltaId Delta) (w : World)
    (u h : Delta) (howMany : Z) : Prop :=
  instanceofMoveDelta h = true
  ∧ (∃ b, delta_batch h = Some b
          ∧ (batch_type (batch_at w b) = Some "undo"
             ∨ batch_type (batch_at w b) = Some "redo"))
  ∧ (∃ ty s k ut m ty' s' ht m',
        operations u !! 0%nat = Some (MoveOperation ty s k ut m)
        ∧ operations h !! 0%nat = Some (MoveOperation ty' s' howMany ht m')
        ∧ isEqual ut ht = true)
  ∧ (∃ origU origH uo ho upPos hPos,
        originalDeltas !! did u = Some origU
        ∧ originalDeltas !! did h = Some origH
        ∧ operations origU !! 0%nat = Some uo
        ∧ operations origH !! 0%nat = Some ho
        ∧ sourcePosition_or_position uo = Some upPos
        ∧ sourcePosition_or_position ho = Some hPos
        ∧ isAfter upPos hPos = true).

(** [R] holds between every element of [l] and its right neighbour. *)
Definition neighbours {A} (R : A → A → Prop) (l : list A) : Prop :=
  ∀ i a b, l !! i = Some a → l !! S i = Some b → R a b.






(** What one operation makes of one range: the pieces of [result], or the
    range itself when the operation yields no result. *)
Definition pieces (operation : Operation) (r : Range) : list Range :=
  default [r] (transform_result operation r).

(** All operations of a list of deltas, in log order. *)
Definition all_operations (deltas : list Delta) : list Operation :=
  deltas ≫= operations.

(** The world once [delta] has joined the reversion batch and its
    operations are applied. *)
Definition apply_delta (reversionBatch : BatchRef) (w : World) (delta : Delta) : World :=
  {| doc := fold_left (λ d operation,
                         applyOperation operation (with_batch reversionBatch delta) d)
                      (operations delta) (doc (addDelta reversionBatch delta w));
     batches := batches (addDelta reversionBatch delta w) |}.

(** The command once every delta of [updatedDeltas] is filed under
    [undoDelta] in the map of original deltas. *)
Definition register_originals (undoDelta : Delta) (updatedDeltas : list Delta)
    (c : UndoCommand) : UndoCommand :=
  fold_left (λ c delta, originalDeltas_set delta undoDelta c) updatedDeltas c.

(** The operations of a list of deltas in order, each with its delta. *)
Definition operations_of (ds : list Delta) : list (Operation * Delta) :=
  ds ≫= λ delta, (λ operation, (operation, delta)) <$> operations delta.

Definition apply_all (ops : list (Operation * Delta)) (d : Doc) : Doc :=
  fold_left (λ d '(operation, delta), applyOperation operation delta d) ops d.

(** The state in which [_doExecute] enters the callback of
    [enqueueChanges]: the item is off the stack and the reversion batch is
    created and typed. *)
Definition before_reversion (batch : option BatchRef) (s : State) : State :=
  {| cmd := without_undoItem batch (cmd s);
     world := set_type (alloc_Batch (world s)).1 (_type (cmd s))
                       (alloc_Batch (world s)).2 |}.

(** A step with nothing to revert: the stack is empty, or the batch asked
    for is not on it. *)
Definition nothing_to_revert (batch : option BatchRef) (c : UndoCommand) : Prop :=
  _items c = [] ∨ ∃ b, batch = Some b ∧ b ∉ stack_batches c.

(** Every batch on the stack is in the registry, and no batch is on the
    stack twice. *)
Definition stack_registered (c : UndoCommand) : Prop :=
  NoDup (stack_batches c) ∧ ∀ b, b ∈ stack_batches c → b ∈ _batchRegistry c.

(** A computation that takes the command from [c] to some [c'] with
    [R c c'], whatever its outcome. *)
Definition preserves {A} (R : relation UndoCommand) (m : Exec A) : Prop :=
  ∀ s, R (cmd s) (cmd (m s).2).

(** The stack, the registry and the type of the command are the same. *)
Definition same_stack (c c' : UndoCommand) : Prop :=
  _items c' = _items c
  ∧ _batchRegistry c' = _batchRegistry c
  ∧ _type c' = _type c.

(** Every delta with an entry in the map of original deltas still has one. *)
Definition originals_kept (c c' : UndoCommand) : Prop :=
  ∀ k, is_Some (_originalDeltas c !! k) → is_Some (_originalDeltas c' !! k).

End Vocabulary.

(** ** A worked scenario on the flat-text document

    The text "foobar" after two user batches: batch 1 moved "oo" to the end
    ("fbaroo"), batch 2 moved "f" between the two "o" ("barofo").  Both are
    on the undo stack. *)
Module Scenario.
Import FlatText.

Definition at_offset (n : Z) : Position :=
  {| root := DocumentRoot "main"; path := [n] |}.

Definition move_oo : Delta :=
  {| did := 10; instanceofMoveDelta := true;
     operations := [MoveOperation TypeMove (at_offset 1) 2 (at_offset 6) (at_offset 4)];
     baseVersion := 0; delta_batch := Some 1%nat |}.

Definition move_f : Delta :=
  {| did := 20; instanceofMoveDelta := true;
     operations := [MoveOperation TypeMove (at_offset 0) 1 (at_offset 5) (at_offset 4)];
     baseVersion := 1; delta_batch := Some 2%nat |}.

Definition caret : Range := {| start := at_offset 5; end_ := at_offset 5 |}.

Definition barofo : World :=
  {| doc := {| history := [move_oo; move_f]; sel_ranges := [caret];
               sel_backward := false |};
     batches := <[2%nat := {| batch_type := None; deltas := [move_f] |}]>
                  (<[1%nat := {| batch_type := None; deltas := [move_oo] |}]> ∅) |}.

Definition undo_both : UndoCommand :=
  addBatch 2%nat barofo (addBatch 1%nat barofo (constructor (Some "undo"))).

Definition two_steps : State := {| cmd := undo_both; world := barofo |}.

(** After the first undo step. *)
Definition one_step : State := (_doExecute None two_steps).2.

(** The same state with the map of original deltas emptied. *)
Definition one_step_forgetful : State :=
  {| cmd := {| _items := _items (cmd one_step);
               _batchRegistry := _batchRegistry (cmd one_step);
               _type := _type (cmd one_step);
               _originalDeltas := ∅;
               isEnabled := isEnabled (cmd one_step);
               fired := fired (cmd one_step) |};
     world := world one_step |}.

(** The delta the first undo step applied, and the delta the second undo
    step obtains from the history before the post-fix. *)
Definition undo_move_f : Delta :=
  {| did := 22; instanceofMoveDelta := true;
     operations := [MoveOperation TypeMove (at_offset 4) 1 (at_offset 0) (at_offset 0)];
     baseVersion := 2; delta_batch := Some 3%nat |}.

Definition undo_move_oo : Delta :=
  {| did := 12; instanceofMoveDelta := true;
     operations := [MoveOperation TypeMove (at_offset 4) 2 (at_offset 0) (at_offset 0)];
     baseVersion := 3; delta_batch := None |}.

Definition originals : gmap DeltaId Delta :=
  <[12%nat := move_oo]> {[ 22%nat := move_f ]}.

(** A user batch that only fills a detached fragment. *)
Definition in_fragment : Position :=
  {| root := DetachedFragment 0; path := [0] |}.

Definition fill_fragment : Delta :=
  {| did := 30; instanceofMoveDelta := false;
     operations := [InsertOperation in_fragment 3];
     baseVersion := 0; delta_batch := Some 5%nat |}.

Definition detached_work : World :=
  {| doc := {| history := []; sel_ranges := []; sel_backward := false |};
     batches := {[ 5%nat := {| batch_type := None; deltas := [fill_fragment] |} ]} |}.

(** The state in which the second undo step runs its post-fix: delta 12 is
    filed in the map next to delta 22. *)
Definition second_step_originals : gmap DeltaId Delta :=
  _originalDeltas (register_originals move_oo [undo_move_oo] (cmd one_step)).

End Scenario.

(** ** The engine as a whole *)

Section EngineRuns.
Context `{EngineApi}.

(** What reaches the two commands of an engine: a change of the document
    that carries a batch, and the execution of either command.  The
    changes a command causes while it runs are delivered to the listener,
    which hands them to the other command; they are listed here after the
    execution that caused them. *)
Inductive EngineEvent :=
  | Event_change (batch : BatchRef) (w : World)
  | Event_undo (batch : option BatchRef) (w : World)
  | Event_redo (batch : option BatchRef) (w : World).

Definition run_event (e : UndoEngine) (event : EngineEvent) : UndoEngine :=
  match event with
  | Event_change batch w => on_change batch w e
  | Event_undo batch w =>
      {| _undoCommand :=
           cmd (_doExecute batch {| cmd := _undoCommand e; world := w |}).2;
         _redoCommand := _redoCommand e |}
  | Event_redo batch w =>
      {| _undoCommand := _undoCommand e;
         _redoCommand :=
           cmd (_doExecute batch {| cmd := _redoCommand e; world := w |}).2 |}
  end.

Definition run_events (events : list EngineEvent) (e : UndoEngine) : UndoEngine :=
  fold_left run_event events e.

(** [event] is a step of either command that is given [batch]. *)
Definition step_given (batch : BatchRef) (event : EngineEvent) : Prop :=
  match event with
  | Event_undo (Some b) _ | Event_redo (Some b) _ => b = batch
  | _ => False
  end.

(** Every change in [events] carries a batch whose type is the one [ty]
    gives it: batches do not change their type between deliveries. *)
Definition types_stable (ty : BatchRef → BatchType) (events : list EngineEvent)
  : Prop :=
  ∀ batch w, Event_change batch w ∈ events → batch_type (batch_at w batch) = ty batch.

(** [isEnabled] says whether the stack has items. *)
Definition enabled_in_sync (c : UndoCommand) : Prop :=
  isEnabled c = _checkEnabled c.

(** The registry holds the batches of the stack and no other. *)
Definition registry_exact (c : UndoCommand) : Prop :=
  stack_registered c ∧ ∀ b, b ∈ _batchRegistry c → b ∈ stack_batches c.

(** The bookkeeping of a command that only [refreshState] and [fire]
    touch, and the stack. *)
Definition same_bookkeeping (c c' : UndoCommand) : Prop :=
  fired c' = fired c ∧ isEnabled c' = isEnabled c ∧ _items c' = _items c.

(** A computation that takes the world from [w] to some [w'] with [R w w'],
    whatever its outcome. *)
Definition preserves_world {A} (R : relation World) (m : Exec A) : Prop :=
  ∀ s, R (world s) (world (m s).2).

(** Every batch object but [reversionBatch] is the same in both worlds,
    and [reversionBatch] does not leave the store. *)
Definition same_batches_but (reversionBatch : BatchRef) (w w' : World) : Prop :=
  (∀ b, b ≠ reversionBatch → batches w' !! b = batches w !! b)
  ∧ (is_Some (batches w !! reversionBatch) → is_Some (batches w' !! reversionBatch)).

(** [f] is [d] with, at most, other offsets in the target position and the
    moved-range start of its first operation. *)
Definition repositioned_operation (o o' : Operation) : Prop :=
  match o, o' with
  | MoveOperation ty s k t m, MoveOperation ty' s' k' t' m' =>
      ty' = ty ∧ s' = s ∧ k' = k
      ∧ root t' = root t ∧ length (path t') = length (path t)
      ∧ root m' = root m ∧ length (path m') = length (path m)
  | _, _ => o' = o
  end.

Definition repositioned (d f : Delta) : Prop :=
  did f = did d
  ∧ instanceofMoveDelta f = instanceofMoveDelta d
  ∧ baseVersion f = baseVersion d
  ∧ delta_batch f = delta_batch d
  ∧ match operations d, operations f with
    | o :: os, o' :: os' => repositioned_operation o o' ∧ os' = os
    | [], [] => True
    | _, _ => False
    end.

(** An operation the selection transformation has no case for. *)
Definition without_result (o : Operation) : Prop :=
  match o with OtherOperation _ => True | _ => False end.

End EngineRuns.

(** ** More of the scenario *)
Module ScenarioRuns.
Import FlatText Scenario.

(** The two user batches are delivered, the undo command runs one step and
    the change of its reversion batch, batch 3, is delivered. *)
Definition one_undo : list EngineEvent :=
  [ Event_change 1%nat barofo; Event_change 2%nat barofo;
    Event_undo None barofo; Event_change 3%nat (world one_step) ].

Definition one_undo_types (b : BatchRef) : BatchType :=
  if bool_decide (b = 3%nat) then Some "undo" else None.

(** What follows the delivery of batch 2 in [one_undo]. *)
Definition after_second : list EngineEvent :=
  [ Event_undo None barofo; Event_change 3%nat (world one_step) ].

End ScenarioRuns.

Module ScenarioEdges.
Import FlatText Scenario.

(** A store whose batch 9 has no delta, and an undo command that has
    recorded it. *)
Definition hollow : World :=
  {| doc := {| history := []; sel_ranges := [caret]; sel_backward := false |};
     batches := {[ 9%nat := {| batch_type := None; deltas := [] |} ]} |}.

Definition hollow_step : State :=
  {| cmd := addBatch 9%nat hollow (constructor (Some "undo")); world := hollow |}.

(** A delta whose only operation has no case in the selection
    transformation, and two ranges in order that do not touch. *)
Definition rename : Delta :=
  {| did := 40; instanceofMoveDelta := false;
     operations := [OtherOperation "rename"];
     baseVersion := 0; delta_batch := Some 1%nat |}.

Definition apart : list Range :=
  [ {| start := at_offset 0; end_ := at_offset 1 |};
    {| start := at_offset 3; end_ := at_offset 4 |} ].

(** A range over four nodes, two nodes typed into it, and a move that
    carries the two nodes at its start behind it. *)
Definition wide : Range := {| start := at_offset 1; end_ := at_offset 5 |}.

Definition typing : Delta :=
  {| did := 50; instanceofMoveDelta := false;
     operations := [InsertOperation (at_offset 3) 2];
     baseVersion := 0; delta_batch := Some 1%nat |}.


(** The removal of the two typed nodes, and the removal of six nodes from
    offset 0, which takes all of [wide] to the graveyard. *)
Definition untyping : Delta :=
  {| did := 70; instanceofMoveDelta := false;
     operations := [MoveOperation TypeRemove (at_offset 3) 2 graveyard_position
                                  graveyard_position];
     baseVersion := 1; delta_batch := Some 2%nat |}.

Definition clearing : Delta :=
  {| did := 80; instanceofMoveDelta := false;
     operations := [MoveOperation TypeRemove (at_offset 0) 6 graveyard_position
                                  graveyard_position];
     baseVersion := 0; delta_batch := Some 1%nat |}.

End ScenarioEdges.

(** ** The earlier revision of UndoCommand

    undocommand.js before the item list and the registry: the command keeps
    a stack of batches and, beside it, the ranges of the selection for each
    batch; [_doExecute] takes an index.  [clearStack] of this revision calls
    [clear] on a WeakMap, which the language does not define, and is left
    out.  The range methods and [setRanges] are called with one argument
    less than in the later revision; the argument left out is [undefined]
    and reads as [false].  [getDeltas] returns a sequence here, so the
    [|| []] of the source never applies. *)
Module Legacy.
Section Legacy.
Context `{EngineApi}.

(** [fired] lists the batches the command fired 'undo' for, oldest first. *)
Record UndoCommand := mkUndoCommand {
  _batchStack : list BatchRef;
  _batchSelection : gmap BatchRef (list Range);
  fired : list BatchRef
}.

(** [new UndoCommand( editor )]. *)
Definition constructor : UndoCommand :=
  {| _batchStack := []; _batchSelection := ∅; fired := [] |}.

(** [addBatch( batch )]. *)
Definition addBatch (batch : BatchRef) (w : World) (c : UndoCommand) : UndoCommand :=
  {| _batchStack := _batchStack c ++ [batch];
     _batchSelection := <[batch := selection_getRanges (doc w)]> (_batchSelection c);
     fired := fired c |}.

(** [_checkEnabled()]. *)
Definition _checkEnabled (c : UndoCommand) : bool :=
  bool_decide (0 < Z.of_nat (length (_batchStack c))).

(** [this._batchStack[ batchIndex ] ? batchIndex : this._batchStack.length - 1];
    [None] is a [batchIndex] that was not given. *)
Definition effective_index (batchIndex : option Z) (stack : list BatchRef) : Z :=
  match batchIndex with
  | Some i =>
      if bool_decide (0 ≤ i < Z.of_nat (length stack)) then i
      else Z.of_nat (length stack) - 1
  | None => Z.of_nat (length stack) - 1
  end.

(** The loop over [undoDeltas]: every operation of every rebased delta is
    applied. *)
Definition revert_deltas (undoDeltas : list Delta) (d : Doc) : Doc :=
  fold_left
    (λ d undoDelta,
       let undoDeltaReversed := getReversed undoDelta in
       let updatedDeltas := history_getTransformedDelta d undoDeltaReversed in
       fold_left
         (λ d delta,
            fold_left (λ d operation, applyOperation operation delta d)
                      (operations delta) d)
         updatedDeltas d)
    undoDeltas d.

(** [_doExecute( batchIndex )]: the outcome, the command and the world it
    leaves. *)
Definition _doExecute (batchIndex : option Z) (c : UndoCommand) (w : World)
  : Completion unit * (UndoCommand * World) :=
  let batchIndex := effective_index batchIndex (_batchStack c) in
  let '(undoBatch, stack) := splice_one batchIndex (_batchStack c) in
  let c := {| _batchStack := stack; _batchSelection := _batchSelection c;
              fired := fired c |} in
  match undoBatch with
  | None => (Throw TypeError, (c, w))
  | Some undoBatch =>
      let undoDeltas := reverse (deltas (batch_at w undoBatch)) in
      let w := {| doc := revert_deltas undoDeltas (doc w); batches := batches w |} in
      let ranges := _batchSelection c !! undoBatch in
      match deltas (batch_at w undoBatch) !! 0%nat with
      | None => (Throw TypeError, (c, w))
      | Some first =>
          let deltas := history_getDeltas (doc w) (baseVersion first) in
          match ranges with
          | None => (Throw TypeError, (c, w))
          | Some ranges =>
              let transformedRanges := collect_transformedRanges deltas ranges [] in
              let d :=
                if bool_decide (length transformedRanges ≠ 0%nat)
                then selection_setRanges transformedRanges false (doc w)
                else doc w in
              (Normal tt,
               ({| _batchStack := _batchStack c; _batchSelection := _batchSelection c;
                   fired := fired c ++ [undoBatch] |},
                {| doc := d; batches := batches w |}))
          end
      end
  end.

(** The calls the command receives. *)
Inductive Call :=
  | Call_addBatch (batch : BatchRef) (w : World)
  | Call_doExecute (batchIndex : option Z) (w : World).

Definition run_call (c : UndoCommand) (call : Call) : UndoCommand :=
  match call with
  | Call_addBatch batch w => addBatch batch w c
  | Call_doExecute batchIndex w => (_doExecute batchIndex c w).2.1
  end.

Definition run_calls (calls : list Call) (c : UndoCommand) : UndoCommand :=
  fold_left run_call calls c.

End Legacy.
End Legacy.

(** * Properties *)

(** ** Running the state monad *)

Section ExecLemmas.
Context `{EngineApi}.

Lemma forOf_modify_cmd {A} (l : list A) (f : A → UndoCommand → UndoCommand) s :
  forOf l (λ x, modify_cmd (f x)) s
  = (Normal tt, {| cmd := fold_left (λ c x, f x c) l (cmd s); world := world s |}).
Proof.
  revert s. induction l as [|x l IH]; intros [c w]; simpl; [done|].
  unfold bind, modify_cmd at 1. simpl. by rewrite IH.
Qed.

Lemma forOf_modify_doc {A} (l : list A) (f : A → Doc → Doc) s :
  forOf l (λ x, modify_doc (f x)) s
  = (Normal tt,
     {| cmd := cmd s;
        world := {| doc := fold_left (λ d x, f x d) l (doc (world s));
                    batches := batches (world s) |} |}).
Proof.
  revert s. induction l as [|x l IH]; intros [c [d b]]; simpl; [done|].
  unfold bind, modify_doc at 1, modify_world at 1. simpl. by rewrite IH.
Qed.

End ExecLemmas.

(** ** The stack and the registry *)

Section Stack.
Context `{EngineApi}.

Lemma findIndex_spec {A} (p : A → bool) (l : list A) :
  (findIndex p l = -1 ∧ Forall (λ x, p x = false) l)
  ∨ (∃ i x, findIndex p l = Z.of_nat i ∧ l !! i = Some x ∧ p x = true).
Proof.
  induction l as [|x l IH]; simpl; [by left|].
  destruct (p x) eqn:Hp.
  - right. by exists 0%nat, x.
  - destruct IH as [[-> Hall]|(i & y & -> & Hi & Hy)].
    + left. rewrite bool_decide_true by done. split; [done|]. by constructor.
    + right. rewrite bool_decide_false by lia. exists (S i), y.
      split_and!; [lia|done|done].
Qed.

Lemma splice_one_last {A} (l : list A) (x : A) :
  splice_one (-1) (l ++ [x]) = (Some x, l).
Proof.
  unfold splice_one. rewrite bool_decide_true by lia.
  rewrite length_app. simpl.
  replace (Z.to_nat (Z.max (Z.of_nat (length l + 1) + -1) 0)) with (length l) by lia.
  rewrite lookup_app_r, Nat.sub_diag by lia. simpl.
  rewrite take_app_length, drop_ge, app_nil_r; [done|].
  rewrite length_app. simpl. lia.
Qed.

Lemma splice_one_nil {A} (i : Z) : splice_one i (@nil A) = (None, []).
Proof. unfold splice_one. simpl. by rewrite take_nil, lookup_nil. Qed.

Lemma splice_one_sublist {A} (i : Z) (l : list A) : sublist (splice_one i l).2 l.
Proof.
  unfold splice_one. simpl. set (n := Z.to_nat _).
  rewrite <- (take_drop n l) at 3. apply sublist_app; [done|].
  replace (S n) with (n + 1)%nat by lia.
  rewrite <- (drop_drop l 1 n). apply sublist_drop.
Qed.

Section Preserves.
Context (R : relation UndoCommand) `{!PreOrder R}.

Lemma preserves_ret {A} (a : A) : preserves R (ret a).
Proof. intros s. reflexivity. Qed.

Lemma preserves_lift {A} (c : Completion A) : preserves R (lift c).
Proof. intros s. reflexivity. Qed.

Lemma preserves_get : preserves R get.
Proof. intros s. reflexivity. Qed.

Lemma preserves_modify_world f : preserves R (modify_world f).
Proof. intros s. reflexivity. Qed.

Lemma preserves_modify_doc f : preserves R (modify_doc f).
Proof. intros s. reflexivity. Qed.

Lemma preserves_modify_cmd f : (∀ c, R c (f c)) → preserves R (modify_cmd f).
Proof. intros Hf s. apply Hf. Qed.

Lemma preserves_bind {A B} (m : Exec A) (k : A → Exec B) :
  preserves R m → (∀ a, preserves R (k a)) → preserves R (bind m k).
Proof.
  intros Hm Hk s. unfold bind. specialize (Hm s).
  destruct (m s) as [[a|e] s1]; simpl in *; [|done].
  etransitivity; [exact Hm|apply Hk].
Qed.

Lemma preserves_forOf {A} (l : list A) (body : A → Exec unit) :
  (∀ x, preserves R (body x)) → preserves R (forOf l body).
Proof.
  intros Hb. induction l as [|x l IH]; simpl.
  - apply preserves_ret.
  - apply preserves_bind; [apply Hb|done].
Qed.

Lemma preserves_revert_delta rb undoDelta :
  (∀ c delta, R c (originalDeltas_set delta undoDelta c)) →
  preserves R (revert_delta rb undoDelta).
Proof.
  intros Hset. unfold revert_delta.
  apply preserves_bind; [apply preserves_get|intros s1].
  apply preserves_bind.
  { apply preserves_forOf. intros d. by apply preserves_modify_cmd. }
  intros _. apply preserves_bind; [apply preserves_get|intros s2].
  apply preserves_bind; [apply preserves_lift|intros fixed].
  apply preserves_forOf. intros d. unfold add_and_apply.
  apply preserves_bind; [apply preserves_modify_world|intros _].
  apply preserves_forOf. intros o. apply preserves_modify_doc.
Qed.

Lemma preserves_transform_selection undoItem :
  preserves R (transform_selection undoItem).
Proof.
  unfold transform_selection.
  apply preserves_bind; [apply preserves_get|intros s1].
  apply preserves_bind; [apply preserves_lift|intros d].
  apply preserves_modify_doc.
Qed.

(** What [_doExecute] does once it holds the item. *)
Lemma preserves_reversion undoDeltas rb undoItem undoBatch :
  (∀ c delta undoDelta, R c (originalDeltas_set delta undoDelta c)) →
  (∀ c, R c (refreshState c)) →
  (∀ c, R c (fire_revert undoBatch c)) →
  preserves R (forOf undoDeltas (revert_delta rb) ;;;
               transform_selection undoItem ;;;
               modify_cmd refreshState ;;;
               modify_cmd (fire_revert undoBatch)).
Proof.
  intros Hset Hrefresh Hfire.
  apply preserves_bind; [|intros _].
  { apply preserves_forOf. intros d. by apply preserves_revert_delta. }
  apply preserves_bind; [apply preserves_transform_selection|intros _].
  apply preserves_bind; [|intros _]; by apply preserves_modify_cmd.
Qed.

End Preserves.

#[global] Instance same_stack_preorder : PreOrder same_stack.
Proof.
  split.
  - by intros c.
  - intros c1 c2 c3 (Hi & Hr & Ht) (Hi' & Hr' & Ht'). unfold same_stack.
    by rewrite Hi', Hr', Ht'.
Qed.

#[global] Instance originals_kept_preorder : PreOrder originals_kept.
Proof.
  split.
  - by intros c k.
  - intros c1 c2 c3 H12 H23 k Hk. by apply H23, H12.
Qed.

Lemma take_undoItem_eq batch s :
  take_undoItem batch s
  = (Normal (undoItem_of batch (cmd s)),
     {| cmd := without_undoItem batch (cmd s); world := world s |}).
Proof.
  unfold take_undoItem, undoItem_of, without_undoItem, bind, get.
  destruct (splice_one _ _) as [undoItem items]. done.
Qed.

Lemma _doExecute_eq batch s :
  _doExecute batch s
  = match undoItem_of batch (cmd s) with
    | None => (Throw TypeError,
               {| cmd := without_undoItem batch (cmd s); world := world s |})
    | Some undoItem =>
        let s1 := {| cmd := without_undoItem batch (cmd s); world := world s |} in
        let undoBatch := item_batch undoItem in
        let undoDeltas := reverse (deltas (batch_at (world s) undoBatch)) in
        let reversionBatch := (alloc_Batch (world s)).1 in
        let w := (alloc_Batch (world s)).2 in
        (forOf undoDeltas (revert_delta reversionBatch) ;;;
         transform_selection undoItem ;;;
         modify_cmd refreshState ;;;
         modify_cmd (fire_revert undoBatch))
          {| cmd := cmd s1;
             world := set_type reversionBatch (_type (cmd s1)) w |}
    end.
Proof.
  unfold _doExecute. unfold bind at 1. rewrite take_undoItem_eq.
  destruct (undoItem_of batch (cmd s)) as [undoItem|]; [|done].
  unfold bind at 1. simpl. unfold bind at 1. simpl.
  unfold bind at 1. simpl. unfold bind at 1. simpl. done.
Qed.

Lemma _doExecute_stack batch s :
  let c' := cmd (_doExecute batch s).2 in
  _items c' = _items (without_undoItem batch (cmd s))
  ∧ _batchRegistry c' = _batchRegistry (without_undoItem batch (cmd s))
  ∧ _type c' = _type (cmd s).
Proof.
  rewrite _doExecute_eq. destruct (undoItem_of batch (cmd s)) as [undoItem|]; [|done].
  cbv zeta. set (m := bind _ _). set (s1 := mkState _ _).
  assert (preserves same_stack m) as Hm; [|apply (Hm s1)].
  apply (preserves_reversion same_stack); intros; by repeat split.
Qed.

Lemma stack_registered_constructor type : stack_registered (constructor type).
Proof. split; [constructor|]. intros b Hb. by apply elem_of_nil in Hb. Qed.

Lemma stack_batches_addBatch_new batch w c :
  batch ∉ _batchRegistry c →
  _items (addBatch batch w c)
  = _items c ++ [ {| item_batch := batch;
                     selection := {| ranges := selection_getRanges (doc w);
                                     isBackward := selection_isBackward (doc w) |} |} ]
  ∧ _batchRegistry (addBatch batch w c) = {[ batch ]} ∪ _batchRegistry c.
Proof. intros Hb. unfold addBatch. by rewrite bool_decide_false. Qed.

Lemma addBatch_registered batch w c :
  batch ∈ _batchRegistry c → addBatch batch w c = c.
Proof. intros Hb. unfold addBatch. by rewrite bool_decide_true. Qed.

Lemma stack_registered_addBatch batch w c :
  stack_registered c → stack_registered (addBatch batch w c).
Proof.
  intros [Hnd Hreg]. destruct (decide (batch ∈ _batchRegistry c)) as [Hb|Hb].
  { by rewrite addBatch_registered. }
  destruct (stack_batches_addBatch_new batch w c Hb) as [Hi Hr].
  unfold stack_registered, stack_batches. rewrite Hi, Hr, fmap_app. simpl. split.
  - apply NoDup_app. split_and!; [done| |apply NoDup_singleton].
    intros b Hb1 Hb2%list_elem_of_singleton. subst. by apply Hb, Hreg.
  - intros b [Hb1|Hb1%list_elem_of_singleton]%elem_of_app; [|set_solver].
    apply Hreg in Hb1. set_solver.
Qed.

Lemma stack_registered_clearStack c : stack_registered (clearStack c).
Proof. split; [constructor|]. intros b Hb. by apply elem_of_nil in Hb. Qed.

Lemma stack_batches_without_undoItem batch c :
  ∃ n, stack_batches (without_undoItem batch c)
       = take n (stack_batches c) ++ drop (S n) (stack_batches c)
     ∧ ∀ b, batch = Some b → b ∈ stack_batches c → stack_batches c !! n = Some b.
Proof.
  unfold without_undoItem, stack_batches, splice_one. simpl.
  set (n := Z.to_nat _). exists n. split.
  { by rewrite fmap_app, fmap_take, fmap_drop. }
  intros b -> Hb. subst n. simpl.
  destruct (findIndex_spec (λ a, bool_decide (item_batch a = b)) (_items c))
    as [[_ Hall]|(i & x & -> & Hi & Hx)].
  - apply list_elem_of_fmap in Hb as (x & -> & Hx).
    rewrite Forall_forall in Hall. apply Hall in Hx.
    by rewrite bool_decide_true in Hx.
  - rewrite bool_decide_false by lia. apply lookup_lt_Some in Hi as Hlt.
    replace (Z.to_nat (Z.min (Z.of_nat i) (Z.of_nat (length (_items c))))) with i by lia.
    rewrite list_lookup_fmap, Hi. simpl. f_equal. by apply bool_decide_eq_true in Hx.
Qed.

Lemma stack_registered_without_undoItem batch c :
  stack_registered c → stack_registered (without_undoItem batch c).
Proof.
  intros [Hnd Hreg]. destruct (stack_batches_without_undoItem batch c) as (n & Hn & Hb).
  assert (sublist (take n (stack_batches c) ++ drop (S n) (stack_batches c))
                  (stack_batches c)) as Hsub.
  { rewrite <- (take_drop n (stack_batches c)) at 3. apply sublist_app; [done|].
    replace (S n) with (n + 1)%nat by lia.
    rewrite <- (drop_drop (stack_batches c) 1 n). apply sublist_drop. }
  split; rewrite Hn.
  - by eapply sublist_NoDup.
  - intros b Hin. assert (b ∈ stack_batches c) as Hin'.
    { eapply elem_of_sublist; done. }
    unfold without_undoItem. simpl. destruct batch as [b'|]; [|by apply Hreg].
    apply elem_of_difference. split; [by apply Hreg|].
    intros Heq%elem_of_singleton. subst b'.
    specialize (Hb b eq_refl Hin').
    rewrite <- (take_drop_middle _ _ _ Hb) in Hnd.
    apply NoDup_app in Hnd as (_ & Hnd1 & Hnd2).
    apply NoDup_cons in Hnd2 as [Hnd2 _].
    apply elem_of_app in Hin as [Hin|Hin]; [|done].
    apply (Hnd1 b Hin). by left.
Qed.

Lemma stack_registered_doExecute batch s :
  stack_registered (cmd s) → stack_registered (cmd (_doExecute batch s).2).
Proof.
  intros Hc%(stack_registered_without_undoItem batch).
  destruct (_doExecute_stack batch s) as (Hi & Hr & _).
  unfold stack_registered, stack_batches in *. by rewrite Hi, Hr.
Qed.

Lemma stack_registered_run_call call c :
  stack_registered c → stack_registered (run_call c call).
Proof.
  destruct call; simpl.
  - apply stack_registered_addBatch.
  - intros _. apply stack_registered_clearStack.
  - apply (stack_registered_doExecute batch {| cmd := c; world := w |}).
Qed.

Lemma stack_batches_run_call call c b :
  b ∈ stack_batches (run_call c call) →
  b ∈ stack_batches c ∨ b ∈ recorded [call].
Proof.
  destruct call as [batch w| |batch w]; simpl.
  - destruct (decide (batch ∈ _batchRegistry c)) as [Hb|Hb].
    { rewrite addBatch_registered by done. by left. }
    destruct (stack_batches_addBatch_new batch w c Hb) as [Hi _].
    unfold stack_batches. rewrite Hi, fmap_app.
    intros [?|Hb'%list_elem_of_singleton]%elem_of_app; [by left|right].
    unfold recorded. simpl. set_solver.
  - unfold stack_batches. simpl. by intros ?%elem_of_nil.
  - destruct (_doExecute_stack batch {| cmd := c; world := w |}) as (Hi & _).
    unfold stack_batches. rewrite Hi. intros Hb. left.
    eapply elem_of_sublist; [done|]. apply fmap_sublist.
    unfold without_undoItem. simpl. apply splice_one_sublist.
Qed.

Lemma recorded_cons call calls : recorded (call :: calls) = recorded [call] ∪ recorded calls.
Proof. unfold recorded. destruct call; simpl; set_solver. Qed.

Lemma run_calls_invariant calls c (R : gset BatchRef) :
  stack_registered c →
  (∀ b, b ∈ stack_batches c → b ∈ R) →
  stack_registered (run_calls calls c)
  ∧ ∀ b, b ∈ stack_batches (run_calls calls c) → b ∈ R ∪ recorded calls.
Proof.
  revert c R. induction calls as [|call calls IH]; intros c R Hc HR; simpl.
  { split; [done|]. intros b Hb. apply HR in Hb. set_solver. }
  destruct (IH (run_call c call) (R ∪ recorded [call])) as [Hreg Hsub].
  - by apply stack_registered_run_call.
  - intros b [Hb|Hb]%stack_batches_run_call; [apply HR in Hb|]; set_solver.
  - split; [done|]. intros b Hb%Hsub. rewrite recorded_cons. set_solver.
Qed.

(** C7.  [addBatch] is idempotent by batch identity.  In every state a
    command reaches from its construction through calls of [addBatch],
    [clearStack] and [_doExecute], a batch that is on the stack is added
    again without any effect: no item is pushed, the saved selection and
    the enabled state stay as they are.  The stack is never longer than the
    number of distinct batch identities handed to [addBatch]. *)
Theorem addBatch_idempotent_by_identity (type : BatchType) (calls : list Call) :
  let c := run_calls calls (constructor type) in
  (∀ batch w, batch ∈ stack_batches c → addBatch batch w c = c)
  ∧ (length (_items c) ≤ size (recorded calls))%nat.
Proof.
  intros c.
  destruct (run_calls_invariant calls (constructor type) ∅) as [[Hnd Hreg] Hsub].
  { apply stack_registered_constructor. }
  { intros b Hb. by apply elem_of_nil in Hb. }
  fold c in Hnd, Hreg, Hsub. split.
  - intros batch w Hb. apply addBatch_registered. by apply Hreg.
  - transitivity (size (list_to_set (C := gset BatchRef) (stack_batches c))).
    + rewrite size_list_to_set by done. unfold stack_batches. by rewrite length_fmap.
    + apply subseteq_size. intros b Hb%elem_of_list_to_set. apply Hsub in Hb. set_solver.
Qed.

End Stack.

(** C7, at the scenario: batch 2 is on the stack of [undo_both] and adding
    it again changes nothing. *)
Lemma addBatch_idempotent_by_identity_witness :
  addBatch 2%nat Scenario.barofo Scenario.undo_both = Scenario.undo_both.
Proof.
  apply (proj1 (addBatch_idempotent_by_identity (Some "undo")
                  [Call_addBatch 1%nat Scenario.barofo;
                   Call_addBatch 2%nat Scenario.barofo])).
  vm_compute. apply list_elem_of_In. simpl. auto.
Defined.

(** ** The change listener *)

Section Listener.
Context `{EngineApi}.

(** C2.  The listener routes a batch by its type.  An unset type: the undo
    command records the batch and the redo stack is cleared, so it is empty
    afterwards.  'undo': the redo command records the batch, the undo
    command is left as it is.  'redo': the undo command records the batch,
    the redo command is left as it is.  A command that records a batch it
    has not registered holds it as its top item, with the selection of the
    moment. *)
Theorem change_routes_batch_by_type (batch : BatchRef) (w : World) (e : UndoEngine) :
  let type := batch_type (batch_at w batch) in
  let e' := on_change batch w e in
  (type = None →
     _undoCommand e' = addBatch batch w (_undoCommand e)
     ∧ _items (_redoCommand e') = [])
  ∧ (type = Some "undo" →
     _redoCommand e' = addBatch batch w (_redoCommand e)
     ∧ _undoCommand e' = _undoCommand e)
  ∧ (type = Some "redo" →
     _undoCommand e' = addBatch batch w (_undoCommand e)
     ∧ _redoCommand e' = _redoCommand e)
  ∧ (∀ c, batch ∉ _batchRegistry c →
       last (_items (addBatch batch w c))
       = Some {| item_batch := batch;
                 selection := {| ranges := selection_getRanges (doc w);
                                 isBackward := selection_isBackward (doc w) |} |}).
Proof.
  intros type e'. subst e'. unfold on_change. fold type. split_and!.
  - intros ->. by rewrite bool_decide_true.
  - intros ->. rewrite bool_decide_false by done. by rewrite bool_decide_true.
  - intros ->. do 2 rewrite bool_decide_false by done. by rewrite bool_decide_true.
  - intros c Hc. destruct (stack_batches_addBatch_new batch w c Hc) as [-> _].
    by rewrite last_snoc.
Qed.

End Listener.

(** C2, at the scenario: batch 1 has no type; delivered to a fresh engine
    it lands on the undo stack and the redo stack is empty. *)
Lemma change_routes_batch_by_type_witness :
  stack_batches (_undoCommand (on_change 1%nat Scenario.barofo init)) = [1%nat]
  ∧ _items (_redoCommand (on_change 1%nat Scenario.barofo init)) = [].
Proof.
  destruct (change_routes_batch_by_type 1%nat Scenario.barofo init)
    as (Huser & _ & _ & Htop).
  destruct (Huser eq_refl) as [Hundo Hredo]. split; [|exact Hredo].
  rewrite Hundo. reflexivity.
Defined.

(** C9, evaluated.  The only batch of [detached_work] has no type and all
    its operations stay in a detached fragment.  The listener looks at the
    type alone: delivered on the change stream, the batch goes on the undo
    stack and the undo command becomes enabled. *)
Theorem non_document_batch_is_recorded :
  let batch := batch_at Scenario.detached_work 5%nat in
  let e := on_change 5%nat Scenario.detached_work init in
  non_document_batch batch = true
  ∧ stack_batches (_undoCommand e) = [5%nat]
  ∧ isEnabled (_undoCommand e) = true.
Proof. vm_compute. done. Qed.

Section Registry.
Context `{EngineApi}.

Lemma doExecute_top_keeps_registry s :
  _batchRegistry (cmd (_doExecute None s).2) = _batchRegistry (cmd s).
Proof. by destruct (_doExecute_stack None s) as (_ & -> & _). Qed.

Lemma clearStack_keeps_registry c :
  _batchRegistry (clearStack c) = _batchRegistry c.
Proof. done. Qed.

End Registry.

(** C8, evaluated.  The undo stack holds batches 1 and 2.  [_doExecute()]
    without an argument takes batch 2 off the stack and deletes [null] from
    the registry, so batch 2 stays registered and a later [addBatch] of it
    is ignored.  [clearStack()] empties the stack and leaves both batches
    registered. *)
Theorem popped_top_stays_registered :
  let c := cmd (_doExecute None Scenario.two_steps).2 in
  stack_batches Scenario.undo_both = [1%nat; 2%nat]
  ∧ stack_batches c = [1%nat]
  ∧ bool_decide (2%nat ∈ _batchRegistry c) = true
  ∧ stack_batches (addBatch 2%nat Scenario.barofo c) = [1%nat]
  ∧ stack_batches (clearStack Scenario.undo_both) = []
  ∧ bool_decide (_batchRegistry (clearStack Scenario.undo_both) = {[ 1%nat; 2%nat ]}) = true.
Proof. vm_compute. done. Qed.

(** ** A step with nothing to revert *)

Section NothingToRevert.
Context `{EngineApi}.

Lemma batchIndex_absent b items :
  b ∉ item_batch <$> items → batchIndex (Some b) items = -1.
Proof.
  intros Hb. unfold batchIndex.
  destruct (findIndex_spec (λ a, bool_decide (item_batch a = b)) items)
    as [[-> _]|(i & x & _ & Hi & Hx)]; [done|].
  destruct Hb. apply bool_decide_eq_true in Hx as <-.
  apply list_elem_of_fmap. exists x. split; [done|].
  by eapply list_elem_of_lookup_2.
Qed.

Lemma splice_one_minus_one {A} (l : list A) :
  l ≠ [] → splice_one (-1) l = splice_one (Z.of_nat (length l) - 1) l.
Proof.
  intros Hl. unfold splice_one. destruct l as [|x l]; [done|]. simpl length.
  rewrite bool_decide_true by lia. rewrite bool_decide_false by lia.
  by replace (Z.max (Z.of_nat (S (length l)) + -1) 0)
    with (Z.min (Z.of_nat (S (length l)) - 1) (Z.of_nat (S (length l)))) by lia.
Qed.

(** C6, as the code has it.  With an empty stack [_doExecute] throws a
    TypeError when it reads the batch of the missing item: the stack stays
    empty, nothing is applied and the world is untouched.  With a batch
    that is not on a stack that has items, the index is -1 and [splice]
    takes the last item: the step reverts the top of the stack, exactly as
    a call without a batch does. *)
Theorem doExecute_with_nothing_to_revert (batch : option BatchRef) (s : State) :
  (_items (cmd s) = [] →
     ∃ c, _doExecute batch s = (Throw TypeError, {| cmd := c; world := world s |})
          ∧ _items c = [])
  ∧ (∀ b, batch = Some b → b ∉ stack_batches (cmd s) → _items (cmd s) ≠ [] →
       _doExecute (Some b) s
       = _doExecute None {| cmd := batchRegistry_delete (Some b) (cmd s);
                            world := world s |}
       ∧ ∃ items top, _items (cmd s) = items ++ [top]
                      ∧ _items (cmd (_doExecute (Some b) s).2) = items).
Proof.
  split.
  - intros Hempty. rewrite _doExecute_eq.
    unfold undoItem_of, without_undoItem. rewrite Hempty, splice_one_nil. simpl.
    eexists. split; [done|]. done.
  - intros b -> Hb Hne.
    assert (undoItem_of (Some b) (cmd s)
            = undoItem_of None (batchRegistry_delete (Some b) (cmd s))) as Hitem.
    { unfold undoItem_of.
      change (_items (batchRegistry_delete (Some b) (cmd s))) with (_items (cmd s)).
      rewrite batchIndex_absent by done. by rewrite splice_one_minus_one. }
    assert (without_undoItem (Some b) (cmd s)
            = without_undoItem None (batchRegistry_delete (Some b) (cmd s))) as Hcmd.
    { unfold without_undoItem.
      change (_items (batchRegistry_delete (Some b) (cmd s))) with (_items (cmd s)).
      rewrite batchIndex_absent by done. rewrite splice_one_minus_one by done.
      done. }
    split.
    + rewrite !_doExecute_eq. simpl. by rewrite Hitem, Hcmd.
    + destruct (_doExecute_stack (Some b) s) as (-> & _).
      unfold without_undoItem.
      change (_items (batchRegistry_delete (Some b) ?c)) with (_items c).
      change (_items (set_items ?l ?c)) with l.
      rewrite batchIndex_absent by done.
      destruct (_items (cmd s)) as [|x l _] using rev_ind; [done|].
      exists l, x. by rewrite splice_one_last.
Qed.

End NothingToRevert.

(** C6, at the scenario: the stack of a new command is empty, and batch 7
    is not on the stack of [two_steps]. *)
Lemma doExecute_with_nothing_to_revert_witness :
  (∃ c, @_doExecute FlatText.api None
          {| cmd := constructor (Some "undo"); world := Scenario.barofo |}
        = (Throw TypeError, {| cmd := c; world := Scenario.barofo |})
        ∧ _items c = [])
  ∧ stack_batches (cmd (_doExecute (Some 7%nat) Scenario.two_steps).2) = [1%nat].
Proof.
  split.
  - apply (proj1 (doExecute_with_nothing_to_revert None
                    {| cmd := constructor (Some "undo"); world := Scenario.barofo |})).
    reflexivity.
  - destruct (proj2 (doExecute_with_nothing_to_revert (Some 7%nat) Scenario.two_steps)
                7%nat eq_refl) as [_ (items & top & Hitems & Hres)].
    + vm_compute. intros Hin%list_elem_of_In. simpl in Hin. intuition discriminate.
    + discriminate.
    + unfold stack_batches. rewrite Hres.
      change (_items (cmd Scenario.two_steps))
        with ([mkItem 1%nat (mkSelectionState [Scenario.caret] false)]
              ++ [mkItem 2%nat (mkSelectionState [Scenario.caret] false)])
        in Hitems.
      apply app_inj_tail in Hitems as [<- _]. reflexivity.
Defined.

(** C6 does not hold as stated: batch 7 is not on the stack of [two_steps],
    yet the step takes batch 2 off the stack and applies its reversion. *)
Lemma step_with_absent_batch_is_not_a_noop :
  ¬ (∀ (batch : option BatchRef) (s : @State FlatText.api),
       nothing_to_revert batch (cmd s) →
       _items (cmd (_doExecute batch s).2) = _items (cmd s)
       ∧ world (_doExecute batch s).2 = world s).
Proof.
  intros Hnoop.
  destruct (Hnoop (Some 7%nat) Scenario.two_steps) as [Hitems _].
  - right. exists 7%nat. split; [done|].
    vm_compute. intros Hin%list_elem_of_In. simpl in Hin. intuition discriminate.
  - vm_compute in Hitems. discriminate.
Qed.

(** ** The move post-fix *)

Section PostFix.
Context `{EngineApi}.

Lemma not_a_reversion_false w h :
  not_a_reversion w h = false ↔
  ∃ b, delta_batch h = Some b
       ∧ (batch_type (batch_at w b) = Some "undo"
          ∨ batch_type (batch_at w b) = Some "redo").
Proof.
  unfold not_a_reversion. destruct (delta_batch h) as [b|].
  - rewrite andb_false_iff, !negb_false_iff, !bool_decide_eq_true.
    split; [intros Hb; by exists b|]. by intros (? & [= <-] & Hb).
  - split; [done|]. by intros (? & ? & _).
Qed.


Lemma postFix_inner_normal o w u h u' :
  postFix_inner o w u h = Normal u' →
  (∃ n, move_conflict o w u h n ∧ u' = shift_delta n u) ∨ u' = u.
Proof.
  unfold postFix_inner.
  destruct (instanceofMoveDelta h) eqn:Hmove; simpl; [|intros [= <-]; by right].
  destruct (not_a_reversion w h) eqn:Hkind; [intros [= <-]; by right|].
  apply not_a_reversion_false in Hkind.
  destruct (operations u !! 0%nat) as [[| ty s k ut m |]|] eqn:Hu; simpl; try done.
  destruct (operations h !! 0%nat) as [[| ty' s' n ht m' |]|] eqn:Hh; simpl; try done.
  destruct (isEqual ut ht) eqn:Heq; [|intros [= <-]; by right].
  destruct (o !! did u) as [origU|] eqn:HoU; [|intros [= <-]; by right].
  destruct (o !! did h) as [origH|] eqn:HoH; [|intros [= <-]; by right].
  destruct (operations origU !! 0%nat) as [uo|] eqn:Huo; simpl; [|done].
  destruct (operations origH !! 0%nat) as [ho|] eqn:Hho; simpl; [|done].
  destruct (sourcePosition_or_position uo) as [upPos|] eqn:Hup; simpl; [|done].
  destruct (sourcePosition_or_position ho) as [hPos|] eqn:Hhp; simpl; [|done].
  destruct (isAfter upPos hPos) eqn:Hafter; [|intros [= <-]; by right].
  intros [= <-]. left. exists n. split; [|done].
  split_and!; [done|done| |].
  - by exists ty, s, k, ut, m, ty', s', ht, m'.
  - by exists origU, origH, uo, ho, upPos, hPos.
Qed.




Lemma postFix_scan_unchanged o w u hs u' :
  postFix_scan o w u hs = Normal u' →
  (∀ h n, h ∈ hs → ¬ move_conflict o w u h n) → u' = u.
Proof.
  revert u'. induction hs as [|h hs IH]; intros u'; simpl.
  - by intros [= ->].
  - destruct (postFix_inner o w u h) as [u1|e] eqn:Hin; simpl; [|done].
    intros Hscan Hno.
    apply postFix_inner_normal in Hin as [(n & Hc & _)| ->].
    + destruct (Hno h n); [by left|done].
    + apply IH; [done|]. intros h' n' Hh'. apply Hno. by right.
Qed.



End PostFix.

(** The scenario values are what the code computes: the first undo step
    adds [undo_move_f] to the history and files it in the map; the second
    step gets [undo_move_oo] from the history and files it as well. *)
Example scenario_second_step :
  FlatText.history (doc (world Scenario.one_step))
  = [Scenario.move_oo; Scenario.move_f; Scenario.undo_move_f]
  ∧ FlatText.transformed_delta (doc (world Scenario.one_step))
                               (FlatText.reversed Scenario.move_oo)
    = [Scenario.undo_move_oo]
  ∧ Scenario.second_step_originals = Scenario.originals.
Proof. vm_compute. done. Qed.


(** ** Selection transformation *)

Section Selection.
Context `{EngineApi}.

Lemma transform_by_operation_pieces operation done todo :
  transform_by_operation operation done todo
  = done ++ (todo ≫= pieces operation).
Proof.
  revert done. induction todo as [|r todo IH]; intros done; simpl.
  - by rewrite app_nil_r.
  - unfold pieces at 1.
    destruct (transform_result operation r) as [result|]; simpl;
      rewrite IH; by rewrite <- app_assoc.
Qed.

Lemma transform_by_deltas_all_operations deltas transformed :
  transform_by_deltas deltas transformed
  = fold_left (λ transformed operation, transformed ≫= pieces operation)
              (all_operations deltas) transformed.
Proof.
  unfold transform_by_deltas, all_operations.
  revert transformed. induction deltas as [|d deltas IH]; intros transformed; [done|].
  simpl. rewrite fold_left_app, IH. f_equal.
  generalize (operations d). clear. intros ops. revert transformed.
  induction ops as [|o ops IH]; intros transformed; [done|]. simpl.
  by rewrite transform_by_operation_pieces, IH.
Qed.

Lemma sort_singleton `{!SortLaws} comparefn (r : Range) :
  sort comparefn [r] = [r].
Proof. apply Permutation_singleton_r, sort_permutes. Qed.

Lemma neighbours_cons {A} (R : A → A → Prop) a l :
  neighbours R (a :: l) ↔ (∀ b, head l = Some b → R a b) ∧ neighbours R l.
Proof.
  split.
  - intros Hn. split.
    + intros b Hb. apply (Hn 0%nat a b); [done|]. by destruct l.
    + intros i x y Hx Hy. by apply (Hn (S i) x y).
  - intros [Hh Hn] [|i] x y Hx Hy.
    + simpl in Hx. injection Hx as ->. apply Hh. by destruct l.
    + by apply (Hn i x y).
Qed.

Lemma neighbours_nil {A} (R : A → A → Prop) : neighbours R [].
Proof. by intros i a b Ha. Qed.


Lemma merge_touching_from_head a rest :
  ∃ b, head (merge_touching_from a rest) = Some b ∧ start b = start a.
Proof.
  revert a. induction rest as [|b rest IH]; intros a; simpl; [by exists a|].
  destruct (isTouching (end_ a) (start b)).
  - destruct (IH {| start := start a; end_ := end_ b |}) as (c & Hc & Hs).
    by exists c.
  - by exists a.
Qed.

Lemma merge_touching_from_apart a rest :
  neighbours (λ a b, isTouching (end_ a) (start b) = false)
             (merge_touching_from a rest).
Proof.
  revert a. induction rest as [|b rest IH]; intros a; simpl.
  { apply neighbours_cons. split; [done|apply neighbours_nil]. }
  destruct (isTouching (end_ a) (start b)) eqn:Ht; [apply IH|].
  apply neighbours_cons. split; [|apply IH].
  intros c Hc. destruct (merge_touching_from_head b rest) as (c' & Hc' & Hs).
  rewrite Hc' in Hc. injection Hc as <-. by rewrite Hs.
Qed.

Lemma merge_touching_apart l :
  neighbours (λ a b, isTouching (end_ a) (start b) = false) (merge_touching l).
Proof.
  destruct l as [|a rest]; [apply neighbours_nil|apply merge_touching_from_apart].
Qed.






Lemma merge_touching_from_shape a rest :
  (length (merge_touching_from a rest) ≤ S (length rest))%nat
  ∧ start <$> merge_touching_from a rest `sublist_of` start <$> (a :: rest)
  ∧ end_ <$> last (merge_touching_from a rest) = end_ <$> last (a :: rest).
Proof.
  revert a. induction rest as [|b rest IH]; intros a; simpl.
  { split_and!; [lia|done|done]. }
  destruct (isTouching (end_ a) (start b)).
  - destruct (IH {| start := start a; end_ := end_ b |}) as (Hl & Hs & He).
    split_and!; [lia| |].
    + etransitivity; [exact Hs|]. rewrite ?fmap_cons. simpl.
      apply sublist_skip, sublist_cons. reflexivity.
    + rewrite He. by destruct rest.
  - destruct (IH b) as (Hl & Hs & He). split_and!; [simpl; lia| |].
    + rewrite ?fmap_cons. simpl. by apply sublist_skip.
    + destruct (merge_touching_from_head b rest) as (c & Hc & _).
      destruct (merge_touching_from b rest) as [|c' l']; [done|].
      change (last (a :: c' :: l')) with (last (c' :: l')). by rewrite He.
Qed.


Lemma compare_starts_negative a b :
  compare_starts a b < 0 ↔ isBefore (start a) (start b) = true.
Proof. unfold compare_starts. destruct (isBefore _ _); split; (done || lia). Qed.



Lemma collect_transformedRanges_omap deltas ranges acc :
  collect_transformedRanges deltas ranges acc
  = acc ++ omap (transformedRange deltas) ranges.
Proof.
  revert acc. induction ranges as [|r ranges IH]; intros acc; simpl.
  - by rewrite app_nil_r.
  - destruct (transformedRange deltas r) as [r'|]; rewrite IH; [|done].
    by rewrite <- app_assoc.
Qed.

End Selection.

(** ** The sort of the reference document meets the laws *)

Lemma sort_insert_Permutation {A} (cmp : A → A → Z) x l :
  FlatText.sort_insert cmp x l ≡ₚ x :: l.
Proof.
  induction l as [|y l IH]; simpl; [done|].
  case_bool_decide; [|done]. rewrite IH. apply Permutation_swap.
Qed.

Lemma insertion_fold_Permutation {A} (cmp : A → A → Z) l acc :
  fold_left (λ sorted_rev element, FlatText.sort_insert cmp element sorted_rev) l acc
  ≡ₚ l ++ acc.
Proof.
  revert acc. induction l as [|x l IH]; intros acc; simpl; [done|].
  rewrite IH, sort_insert_Permutation. by rewrite Permutation_middle.
Qed.

Lemma insertion_sort_Permutation {A} (cmp : A → A → Z) l :
  FlatText.insertion_sort cmp l ≡ₚ l.
Proof.
  unfold FlatText.insertion_sort. rewrite reverse_Permutation.
  by rewrite insertion_fold_Permutation, app_nil_r.
Qed.

Lemma orders_elements {A} (cmp : A → A → Z) l :
  orders cmp l →
  (∀ a b, a ∈ l → b ∈ l → a ≠ b → sorts_before cmp a b ∨ sorts_before cmp b a)
  ∧ (∀ a b c, a ∈ l → b ∈ l → c ∈ l → cmp a b < 0 → cmp b c < 0 → cmp a c < 0).
Proof.
  intros (_ & Htotal & Htrans). split.
  - intros a b Ha Hb Hab. rewrite Forall_forall in Htotal.
    specialize (Htotal a Ha). rewrite Forall_forall in Htotal.
    by destruct (Htotal b Hb) as [?|?].
  - intros a b c Ha Hb Hc. rewrite Forall_forall in Htrans.
    specialize (Htrans a Ha). rewrite Forall_forall in Htrans.
    specialize (Htrans b Hb). rewrite Forall_forall in Htrans.
    by apply Htrans.
Qed.

Lemma sort_insert_descending {A} (cmp : A → A → Z) x acc :
  (∀ t, t ∈ acc → sorts_before cmp x t ∨ sorts_before cmp t x) →
  (∀ s t, s ∈ acc → t ∈ acc → cmp s t < 0 → cmp t x < 0 → cmp s x < 0) →
  StronglySorted (λ t s, cmp s t < 0) acc →
  StronglySorted (λ t s, cmp s t < 0) (FlatText.sort_insert cmp x acc).
Proof.
  induction acc as [|t acc IH]; intros Htotal Htrans Hacc; simpl.
  { repeat constructor. }
  apply StronglySorted_cons in Hacc as [Ht Hacc].
  assert (t ∈ t :: acc) as Hin by left.
  case_bool_decide as Hc.
  - apply StronglySorted_cons. split.
    + rewrite sort_insert_Permutation. apply Forall_cons. split; [|done].
      destruct (Htotal t Hin) as [[Hx _]|[Hx _]]; [done|lia].
    + apply IH; [|  |done].
      * intros s Hs. apply Htotal. by right.
      * intros s u Hs Hu. apply Htrans; by right.
  - assert (cmp t x < 0) as Htx.
    { destruct (Htotal t Hin) as [[_ Hx]|[Hx _]]; [done|done]. }
    apply StronglySorted_cons. split.
    + apply Forall_cons. split; [done|]. rewrite Forall_forall in Ht |- *.
      intros s Hs. apply (Htrans s t); [by right|done|by apply Ht|done].
    + by apply StronglySorted_cons.
Qed.

Lemma insertion_fold_descending {A} (cmp : A → A → Z) (all l acc : list A) :
  orders cmp all → NoDup (acc ++ l) → (∀ a, a ∈ acc ++ l → a ∈ all) →
  StronglySorted (λ t s, cmp s t < 0) acc →
  StronglySorted (λ t s, cmp s t < 0)
    (fold_left (λ sorted_rev element, FlatText.sort_insert cmp element sorted_rev) l acc).
Proof.
  intros [Htotal Htrans]%orders_elements.
  revert acc. induction l as [|x l IH]; intros acc Hnodup Hall Hacc; [done|].
  simpl. apply NoDup_app in Hnodup as Hparts. destruct Hparts as (_ & Hfresh & _).
  assert (x ∈ all) as Hx by (apply Hall; set_solver).
  apply IH.
  - rewrite sort_insert_Permutation. simpl. by rewrite Permutation_middle.
  - intros a. rewrite sort_insert_Permutation. intros Ha. apply Hall.
    by rewrite <- Permutation_middle.
  - apply sort_insert_descending; [| |done].
    + intros t Ht. apply Htotal; [done|apply Hall; set_solver|].
      intros ->. apply (Hfresh t Ht). by left.
    + intros s t Hs Ht. apply Htrans; [apply Hall; set_solver..|done].
Qed.

Lemma StronglySorted_reverse {A} (R : A → A → Prop) l :
  StronglySorted (flip R) l → StronglySorted R (reverse l).
Proof.
  induction l as [|a l IH]; [constructor|].
  intros [Ha Hl]%StronglySorted_cons. rewrite reverse_cons.
  apply StronglySorted_app_2; [|by apply IH|repeat constructor].
  intros x y Hx ->%list_elem_of_singleton. rewrite elem_of_reverse in Hx.
  rewrite Forall_forall in Ha. exact (Ha x Hx).
Qed.

Lemma insertion_sort_ascending {A} (cmp : A → A → Z) l :
  orders cmp l → ascending cmp (FlatText.insertion_sort cmp l).
Proof.
  intros Hord. unfold ascending, FlatText.insertion_sort.
  apply StronglySorted_reverse. unfold flip.
  apply (insertion_fold_descending cmp l); [done|by destruct Hord|done|constructor].
Qed.

#[global] Instance FlatText_sort_laws : @SortLaws FlatText.api.
Proof.
  split.
  - intros cmp l. apply insertion_sort_Permutation.
  - intros cmp l. apply insertion_sort_ascending.
Qed.

(** ** The range kept for a saved range *)

Section SelectionSorted.
Context `{EngineApi} `{!SortLaws}.


End SelectionSorted.

Section SelectionAtScenario.
#[local] Existing Instance FlatText.api.


(** At the same range: the two typed nodes are removed again, the two
    pieces touch and the range is kept as one; and when all its nodes are
    removed its only candidate starts in the graveyard and nothing is
    kept. *)
Example split_range_is_kept_as_one_piece :
  fold_left (λ transformed operation, transformed ≫= pieces operation)
            (all_operations [ScenarioEdges.typing; ScenarioEdges.untyping])
            [ScenarioEdges.wide]
  = [ {| start := Scenario.at_offset 1; end_ := Scenario.at_offset 3 |};
      {| start := Scenario.at_offset 3; end_ := Scenario.at_offset 5 |} ]
  ∧ transformedRange [ScenarioEdges.typing; ScenarioEdges.untyping] ScenarioEdges.wide
    = Some ScenarioEdges.wide
  ∧ fold_left (λ transformed operation, transformed ≫= pieces operation)
              (all_operations [ScenarioEdges.clearing]) [ScenarioEdges.wide]
    = [ {| start := {| root := Graveyard; path := [1] |};
           end_ := {| root := Graveyard; path := [5] |} |} ]
  ∧ transformedRange [ScenarioEdges.clearing] ScenarioEdges.wide = None.
Proof. vm_compute. done. Qed.

End SelectionAtScenario.

(** ** The reversion loop *)

Section Reversion.
Context `{EngineApi}.

Lemma add_and_apply_eq rb delta s :
  add_and_apply rb delta s
  = (Normal tt, {| cmd := cmd s; world := apply_delta rb (world s) delta |}).
Proof.
  unfold add_and_apply, bind. simpl. rewrite forOf_modify_doc. done.
Qed.

Lemma forOf_add_and_apply rb fixed s :
  forOf fixed (add_and_apply rb) s
  = (Normal tt, {| cmd := cmd s; world := fold_left (apply_delta rb) fixed (world s) |}).
Proof.
  revert s. induction fixed as [|d fixed IH]; intros s; simpl.
  - by destruct s.
  - unfold bind. rewrite add_and_apply_eq, IH. done.
Qed.

Lemma revert_delta_eq rb undoDelta s :
  let updated := history_getTransformedDelta (doc (world s)) (getReversed undoDelta) in
  let c := register_originals undoDelta updated (cmd s) in
  revert_delta rb undoDelta s
  = match postFix (_originalDeltas c) (world s) updated
            (history_getDeltas (doc (world s)) (baseVersion undoDelta)) with
    | Normal fixed =>
        (Normal tt, {| cmd := c; world := fold_left (apply_delta rb) fixed (world s) |})
    | Throw e => (Throw e, {| cmd := c; world := world s |})
    end.
Proof.
  intros updated c. unfold revert_delta. unfold bind at 1, get at 1.
  unfold bind at 1. rewrite forOf_modify_cmd. fold updated.
  unfold bind at 1, get at 1. simpl. unfold bind, lift.
  fold (register_originals undoDelta updated (cmd s)). fold c.
  destruct (postFix _ _ _ _) as [fixed|e]; [|done].
  by rewrite forOf_add_and_apply.
Qed.

Lemma batch_at_addDelta rb delta w b :
  batch_at (addDelta rb delta w) b
  = if decide (rb = b)
    then {| batch_type := batch_type (batch_at w rb);
            deltas := deltas (batch_at w rb) ++ [with_batch rb delta] |}
    else batch_at w b.
Proof.
  unfold batch_at, addDelta. simpl. rewrite lookup_insert.
  by destruct (decide (rb = b)).
Qed.

Lemma apply_delta_batch rb w delta :
  batch_at (apply_delta rb w delta) rb
  = {| batch_type := batch_type (batch_at w rb);
       deltas := deltas (batch_at w rb) ++ [with_batch rb delta] |}.
Proof.
  change (batch_at (apply_delta rb w delta) rb) with (batch_at (addDelta rb delta w) rb).
  rewrite batch_at_addDelta. by rewrite decide_True.
Qed.

Lemma apply_delta_other rb w delta b :
  rb ≠ b → batch_at (apply_delta rb w delta) b = batch_at w b.
Proof.
  intros Hb.
  change (batch_at (apply_delta rb w delta) b) with (batch_at (addDelta rb delta w) b).
  rewrite batch_at_addDelta. by rewrite decide_False.
Qed.

Lemma apply_delta_doc rb w delta :
  doc (apply_delta rb w delta) = apply_all (operations_of [with_batch rb delta]) (doc w).
Proof.
  unfold apply_delta, apply_all, operations_of. simpl. rewrite app_nil_r.
  generalize (doc w). induction (operations delta) as [|o os IH]; intros d; simpl; [done|].
  apply IH.
Qed.

Lemma operations_of_app ds1 ds2 :
  operations_of (ds1 ++ ds2) = operations_of ds1 ++ operations_of ds2.
Proof. unfold operations_of. by rewrite bind_app. Qed.

Lemma apply_all_app ops1 ops2 d :
  apply_all (ops1 ++ ops2) d = apply_all ops2 (apply_all ops1 d).
Proof. unfold apply_all. by rewrite fold_left_app. Qed.

Lemma fold_apply_delta rb fixed w :
  batch_at (fold_left (apply_delta rb) fixed w) rb
  = {| batch_type := batch_type (batch_at w rb);
       deltas := deltas (batch_at w rb) ++ (with_batch rb <$> fixed) |}
  ∧ doc (fold_left (apply_delta rb) fixed w)
    = apply_all (operations_of (with_batch rb <$> fixed)) (doc w)
  ∧ ∀ b, rb ≠ b → batch_at (fold_left (apply_delta rb) fixed w) b = batch_at w b.
Proof.
  revert w. induction fixed as [|d fixed IH]; intros w; simpl.
  - rewrite app_nil_r. split_and!; [by destruct (batch_at w rb)|done|done].
  - destruct (IH (apply_delta rb w d)) as (Hb & Hd & Ho). split_and!.
    + rewrite Hb, apply_delta_batch. simpl. by rewrite <- app_assoc.
    + rewrite Hd, apply_delta_doc.
      by rewrite <- apply_all_app, <- operations_of_app.
    + intros b Hne. rewrite Ho by done. by apply apply_delta_other.
Qed.

Lemma postFix_inner_same_id o w u h u' :
  postFix_inner o w u h = Normal u' → did u' = did u.
Proof. intros [(n & _ & ->)| ->]%postFix_inner_normal; done. Qed.

Lemma postFix_scan_same_id o w u hs u' :
  postFix_scan o w u hs = Normal u' → did u' = did u.
Proof.
  revert u. induction hs as [|h hs IH]; intros u; simpl; [by intros [= ->]|].
  destruct (postFix_inner o w u h) as [u1|e] eqn:Hin; simpl; [|done].
  intros Hs%IH. rewrite Hs. by eapply postFix_inner_same_id.
Qed.

Lemma postFix_same_ids o w updated hs fixed :
  postFix o w updated hs = Normal fixed → did <$> fixed = did <$> updated.
Proof.
  revert fixed. induction updated as [|u updated IH]; intros fixed; simpl.
  { by intros [= <-]. }
  destruct (if negb (instanceofMoveDelta u) then Normal u else postFix_scan o w u hs)
    as [u'|e] eqn:Hu; simpl; [|done].
  destruct (postFix o w updated hs) as [rest|e]; simpl; [|done].
  intros [= <-]. rewrite !fmap_cons, (IH rest eq_refl). f_equal.
  destruct (instanceofMoveDelta u); simpl in Hu.
  - by eapply postFix_scan_same_id.
  - by injection Hu as <-.
Qed.

Lemma run_calls_type calls c : _type (run_calls calls c) = _type c.
Proof.
  revert c. induction calls as [|call calls IH]; intros c; simpl; [done|].
  rewrite IH. destruct call as [b w| |b w]; simpl.
  - unfold addBatch. by destruct (negb _).
  - done.
  - by destruct (_doExecute_stack b {| cmd := c; world := w |}) as (_ & _ & ->).
Qed.

Lemma forOf_invariant {A} (P : State → Prop) (l : list A) (body : A → Exec unit) :
  (∀ x s s', body x s = (Normal tt, s') → P s → P s') →
  ∀ s s', forOf l body s = (Normal tt, s') → P s → P s'.
Proof.
  intros Hbody. induction l as [|x l IH]; intros s s'; simpl.
  - by intros [= ->].
  - unfold bind. destruct (body x s) as [[[]|e] s1] eqn:Hx; [|done].
    intros Hl Hs. eapply IH; [done|]. by eapply Hbody.
Qed.

Lemma forOf_reverse_snoc {A} (l : list A) (x : A) (body : A → Exec unit) s :
  forOf (reverse (l ++ [x])) body s = (body x ;;; forOf (reverse l) body) s.
Proof. by rewrite reverse_snoc. Qed.

Lemma alloc_Batch_fresh (w : World) : (alloc_Batch w).1 ∉ dom (batches w).
Proof. unfold alloc_Batch. simpl. apply is_fresh. Qed.

Lemma before_reversion_batch batch s :
  batch_at (world (before_reversion batch s)) (alloc_Batch (world s)).1
  = {| batch_type := _type (cmd s); deltas := [] |}.
Proof.
  unfold before_reversion, set_type, batch_at, alloc_Batch. simpl.
  by rewrite lookup_insert_eq, lookup_insert_eq.
Qed.

Lemma revert_delta_normal rb undoDelta s fixed :
  let updated := history_getTransformedDelta (doc (world s)) (getReversed undoDelta) in
  postFix (_originalDeltas (register_originals undoDelta updated (cmd s))) (world s)
          updated (history_getDeltas (doc (world s)) (baseVersion undoDelta))
  = Normal fixed →
  ∃ s', revert_delta rb undoDelta s = (Normal tt, s')
        ∧ did <$> fixed = did <$> updated
        ∧ deltas (batch_at (world s') rb)
          = deltas (batch_at (world s) rb) ++ (with_batch rb <$> fixed)
        ∧ batch_type (batch_at (world s') rb) = batch_type (batch_at (world s) rb)
        ∧ doc (world s')
          = apply_all (operations_of (with_batch rb <$> fixed)) (doc (world s)).
Proof.
  intros updated Hfix. pose proof (revert_delta_eq rb undoDelta s) as Heq.
  simpl in Heq. fold updated in Heq. rewrite Hfix in Heq.
  eexists. split; [exact Heq|]. simpl.
  destruct (fold_apply_delta rb fixed (world s)) as (Hb & Hd & _).
  rewrite Hb, Hd. split_and!; [|done|done|done].
  by eapply postFix_same_ids.
Qed.

Lemma revert_delta_normal_inv rb undoDelta s s' :
  revert_delta rb undoDelta s = (Normal tt, s') →
  ∃ fixed,
    postFix (_originalDeltas
               (register_originals undoDelta
                  (history_getTransformedDelta (doc (world s)) (getReversed undoDelta))
                  (cmd s)))
            (world s)
            (history_getTransformedDelta (doc (world s)) (getReversed undoDelta))
            (history_getDeltas (doc (world s)) (baseVersion undoDelta))
    = Normal fixed.
Proof.
  rewrite revert_delta_eq. simpl.
  destruct (postFix _ _ _ _) as [fixed|e]; [by exists fixed|done].
Qed.

(** C1.  For the item [_doExecute] takes off the stack:
    - the reversion batch is a new batch, typed with the type of the
      command and empty when the loop starts;
    - the loop goes through the deltas of the batch last to first: the
      reversion of [ds ++ [d]] starts with [d] and goes on with [ds], and
      a batch [A; B; C] is reverted as [C], then [B], then [A];
    - an iteration whose post-fix completes rebases the reversed delta with
      [getTransformedDelta], appends every rebased delta (the same objects,
      post-fixed) to the reversion batch and applies every operation of
      each of them to the document, in order;
    - when the loop completes, the reversion batch has the type of the
      command, owns each of its deltas, and the document is the one the
      loop started from with every operation of every delta of the
      reversion batch applied in order;
    - the type of the undo command of an engine is 'undo' and that of its
      redo command 'redo', whatever calls the commands have received. *)
Theorem deltas_reverted_last_to_first (batch : option BatchRef) (s : State)
    (undoItem : Item) :
  undoItem_of batch (cmd s) = Some undoItem →
  let undoBatch := item_batch undoItem in
  let undoDeltas := deltas (batch_at (world s) undoBatch) in
  let reversionBatch := (alloc_Batch (world s)).1 in
  let s0 := before_reversion batch s in
  (reversionBatch ∉ dom (batches (world s)))
  ∧ batch_at (world s0) reversionBatch
    = {| batch_type := _type (cmd s); deltas := [] |}
  ∧ _doExecute batch s
    = (forOf (reverse undoDeltas) (revert_delta reversionBatch) ;;;
       transform_selection undoItem ;;;
       modify_cmd refreshState ;;;
       modify_cmd (fire_revert undoBatch)) s0
  ∧ (∀ ds d s1, undoDeltas = ds ++ [d] →
       forOf (reverse undoDeltas) (revert_delta reversionBatch) s1
       = (revert_delta reversionBatch d ;;;
          forOf (reverse ds) (revert_delta reversionBatch)) s1)
  ∧ (∀ A B C s1, undoDeltas = [A; B; C] →
       forOf (reverse undoDeltas) (revert_delta reversionBatch) s1
       = (revert_delta reversionBatch C ;;;
          revert_delta reversionBatch B ;;;
          revert_delta reversionBatch A ;;;
          ret tt) s1)
  ∧ (∀ undoDelta s1 fixed,
       let updated :=
         history_getTransformedDelta (doc (world s1)) (getReversed undoDelta) in
       postFix (_originalDeltas (register_originals undoDelta updated (cmd s1)))
               (world s1) updated
               (history_getDeltas (doc (world s1)) (baseVersion undoDelta))
       = Normal fixed →
       ∃ s2, revert_delta reversionBatch undoDelta s1 = (Normal tt, s2)
             ∧ did <$> fixed = did <$> updated
             ∧ deltas (batch_at (world s2) reversionBatch)
               = deltas (batch_at (world s1) reversionBatch)
                 ++ (with_batch reversionBatch <$> fixed)
             ∧ doc (world s2)
               = apply_all (operations_of (with_batch reversionBatch <$> fixed))
                           (doc (world s1)))
  ∧ (∀ s3, forOf (reverse undoDeltas) (revert_delta reversionBatch) s0
           = (Normal tt, s3) →
       batch_type (batch_at (world s3) reversionBatch) = _type (cmd s)
       ∧ Forall (λ delta, delta_batch delta = Some reversionBatch)
                (deltas (batch_at (world s3) reversionBatch))
       ∧ doc (world s3)
         = apply_all (operations_of (deltas (batch_at (world s3) reversionBatch)))
                     (doc (world s)))
  ∧ (∀ calls,
       _type (run_calls calls (_undoCommand init)) = Some "undo"
       ∧ _type (run_calls calls (_redoCommand init)) = Some "redo").
Proof.
  intros Hitem undoBatch undoDeltas rb s0. split_and!.
  - apply alloc_Batch_fresh.
  - apply before_reversion_batch.
  - rewrite _doExecute_eq, Hitem. done.
  - intros ds d s1 ->. apply forOf_reverse_snoc.
  - by intros A B C s1 ->.
  - intros undoDelta s1 fixed updated Hfix.
    destruct (revert_delta_normal rb undoDelta s1 fixed Hfix)
      as (s2 & Hrun & Hids & Hdeltas & _ & Hdoc).
    by exists s2.
  - intros s3 Hloop.
    pose (P := λ st : State,
      batch_type (batch_at (world st) rb) = _type (cmd s)
      ∧ Forall (λ delta, delta_batch delta = Some rb) (deltas (batch_at (world st) rb))
      ∧ doc (world st)
        = apply_all (operations_of (deltas (batch_at (world st) rb))) (doc (world s))).
    apply (forOf_invariant P _ _) with (s := s0) in Hloop; [exact Hloop| |].
    + intros undoDelta s1 s2 Hrun (Ht & Hown & Hdoc).
      destruct (revert_delta_normal_inv _ _ _ _ Hrun) as (fixed & Hfix).
      destruct (revert_delta_normal rb undoDelta s1 fixed Hfix)
        as (s2' & Hrun' & _ & Hdeltas & Htype & Hdoc').
      rewrite Hrun in Hrun'. injection Hrun' as <-.
      unfold P. rewrite Hdeltas, Htype, Hdoc'. split_and!; [done| |].
      * apply Forall_app. split; [done|]. apply Forall_fmap.
        by apply Forall_forall.
      * by rewrite operations_of_app, apply_all_app, Hdoc.
    + unfold P. subst s0 rb. rewrite before_reversion_batch. simpl.
      split_and!; [done|constructor|done].
  - intros calls. by rewrite !run_calls_type.
Qed.

End Reversion.

(** C1, at the scenario: the first undo step takes batch 2 off the stack;
    its reversion batch is new, typed 'undo' and empty when the loop starts. *)
Lemma deltas_reverted_last_to_first_witness :
  batch_at (world (before_reversion None Scenario.two_steps))
           (alloc_Batch (world Scenario.two_steps)).1
  = {| batch_type := Some "undo"; deltas := [] |}.
Proof.
  apply (deltas_reverted_last_to_first None Scenario.two_steps
           (mkItem 2%nat (mkSelectionState [Scenario.caret] false))).
  reflexivity.
Defined.

(** ** Restoring the selection *)

Section Restore.
Context `{EngineApi}.

Lemma transform_selection_eq undoItem s :
  transform_selection undoItem s
  = match deltas (batch_at (world s) (item_batch undoItem)) !! 0%nat with
    | None => (Throw TypeError, s)
    | Some first =>
        (Normal tt,
         {| cmd := cmd s;
            world :=
              {| doc := restore_selection
                          (collect_transformedRanges
                             (history_getDeltas (doc (world s)) (baseVersion first))
                             (ranges (selection undoItem)) [])
                          (selection undoItem) (doc (world s));
                 batches := batches (world s) |} |})
    end.
Proof.
  unfold transform_selection, bind, get, lift.
  by destruct (deltas (batch_at (world s) (item_batch undoItem)) !! 0%nat).
Qed.

Lemma restore_selection_cases transformedRanges selectionState d :
  (transformedRanges = [] → restore_selection transformedRanges selectionState d = d)
  ∧ (transformedRanges ≠ [] →
     restore_selection transformedRanges selectionState d
     = selection_setRanges transformedRanges (isBackward selectionState) d).
Proof.
  unfold restore_selection. split.
  - intros ->. by rewrite bool_decide_false by (simpl; lia).
  - intros Hne. rewrite bool_decide_true; [done|]. by destruct transformedRanges.
Qed.

(** C4.  A step that gets through its reversion loop, for a batch that has
    a first delta, completes.  [transformedRanges] holds, in order, the
    surviving range of every saved range that has one; it is empty exactly
    when no saved range has a surviving range.  If it is empty the document
    and its selection are as the reversion loop left them; otherwise the
    selection is set to [transformedRanges] with the [isBackward] of the
    saved selection state.  That state is the selection of the document at
    the moment [addBatch] recorded the batch. *)
Theorem selection_restored_unless_all_in_graveyard (batch : option BatchRef)
    (s s3 : State) (undoItem : Item) (first : Delta) :
  undoItem_of batch (cmd s) = Some undoItem →
  forOf (reverse (deltas (batch_at (world s) (item_batch undoItem))))
        (revert_delta (alloc_Batch (world s)).1) (before_reversion batch s)
  = (Normal tt, s3) →
  deltas (batch_at (world s3) (item_batch undoItem)) !! 0%nat = Some first →
  let deltas := history_getDeltas (doc (world s3)) (baseVersion first) in
  let transformedRanges :=
    omap (transformedRange deltas) (ranges (selection undoItem)) in
  (∃ final,
      _doExecute batch s = (Normal tt, final)
      ∧ batches (world final) = batches (world s3)
      ∧ (transformedRanges = [] → doc (world final) = doc (world s3))
      ∧ (transformedRanges ≠ [] →
         doc (world final)
         = selection_setRanges transformedRanges (isBackward (selection undoItem))
                               (doc (world s3))))
  ∧ (transformedRanges = [] ↔
     ∀ r, r ∈ ranges (selection undoItem) → transformedRange deltas r = None)
  ∧ (∀ b w c, b ∉ _batchRegistry c →
       ∃ item, last (_items (addBatch b w c)) = Some item
               ∧ item_batch item = b
               ∧ ranges (selection item) = selection_getRanges (doc w)
               ∧ isBackward (selection item) = selection_isBackward (doc w)).
Proof.
  intros Hitem Hloop Hfirst hist transformedRanges. split_and!.
  - rewrite _doExecute_eq, Hitem. cbv zeta.
    unfold before_reversion in Hloop. simpl in Hloop.
    unfold bind at 1. simpl. rewrite Hloop.
    unfold bind at 1. rewrite transform_selection_eq, Hfirst.
    fold hist. rewrite collect_transformedRanges_omap. simpl. fold transformedRanges.
    eexists. split; [reflexivity|]. simpl.
    destruct (restore_selection_cases transformedRanges (selection undoItem)
                (doc (world s3))) as [Hnil Hcons].
    split_and!; [done| |].
    + intros Hempty. by rewrite Hnil.
    + intros Hne. by rewrite Hcons.
  - subst transformedRanges. generalize (ranges (selection undoItem)). intros rs.
    induction rs as [|r rs IH]; simpl.
    + split; [|done]. intros _ r Hr. by apply elem_of_nil in Hr.
    + destruct (transformedRange hist r) as [r'|] eqn:Hr.
      * split; [done|]. intros Hall. specialize (Hall r). rewrite Hr in Hall.
        discriminate Hall. by left.
      * rewrite IH. split.
        -- intros Hall x [->|Hx]%elem_of_cons; [done|by apply Hall].
        -- intros Hall x Hx. apply Hall. by right.
  - intros b w c Hb. destruct (stack_batches_addBatch_new b w c Hb) as [-> _].
    rewrite last_snoc. by eexists.
Qed.

End Restore.

(** C4, at the scenario: the first undo step gets through its loop, batch 2
    has a first delta, and the step completes. *)
Lemma selection_restored_unless_all_in_graveyard_witness :
  ∃ final, _doExecute None Scenario.two_steps = (Normal tt, final)
           ∧ batches (world final) = batches (world Scenario.one_step).
Proof.
  pose (item := mkItem 2%nat (mkSelectionState [Scenario.caret] false)).
  pose (s3 := (forOf (reverse (deltas (batch_at (world Scenario.two_steps) 2%nat)))
                 (revert_delta (alloc_Batch (world Scenario.two_steps)).1)
                 (before_reversion None Scenario.two_steps)).2).
  destruct (selection_restored_unless_all_in_graveyard None Scenario.two_steps s3
              item Scenario.move_f)
    as [(final & Hrun & Hbatches & _) _].
  - reflexivity.
  - vm_compute. reflexivity.
  - vm_compute. reflexivity.
  - exists final. split; [exact Hrun|]. rewrite Hbatches. vm_compute. reflexivity.
Defined.

(** ** The map of original deltas *)

Section Originals.
Context `{EngineApi}.

Lemma originals_kept_set c delta undoDelta :
  originals_kept c (originalDeltas_set delta undoDelta c).
Proof.
  intros k Hk. unfold originalDeltas_set. simpl. rewrite lookup_insert.
  by destruct (decide (did delta = k)).
Qed.

Lemma register_originals_map undoDelta updated c :
  _originalDeltas (register_originals undoDelta updated c)
  = fold_left (λ m delta, <[did delta := undoDelta]> m) updated (_originalDeltas c).
Proof.
  unfold register_originals. revert c.
  induction updated as [|d updated IH]; intros c; simpl; [done|]. by rewrite IH.
Qed.

(** C10, as the code has it.  The map of original deltas belongs to the
    command, not to one call of [_doExecute]: whatever the outcome of a
    step, every delta that had an entry before the step has one after it.
    In each iteration the rebased deltas are filed in the map the command
    holds at that moment, the post-fix runs on the map so extended, and the
    command leaves the iteration with it. *)
Theorem original_deltas_kept_by_command (batch : option BatchRef) (s : State) :
  (∀ k, is_Some (_originalDeltas (cmd s) !! k) →
        is_Some (_originalDeltas (cmd (_doExecute batch s).2) !! k))
  ∧ (∀ rb undoDelta s1,
       let updated :=
         history_getTransformedDelta (doc (world s1)) (getReversed undoDelta) in
       let originalDeltas :=
         fold_left (λ m delta, <[did delta := undoDelta]> m) updated
                   (_originalDeltas (cmd s1)) in
       _originalDeltas (cmd (revert_delta rb undoDelta s1).2) = originalDeltas
       ∧ (revert_delta rb undoDelta s1).1
         = (postFix originalDeltas (world s1) updated
              (history_getDeltas (doc (world s1)) (baseVersion undoDelta))
            ≫= λ _, Normal tt)).
Proof.
  split.
  - rewrite _doExecute_eq. destruct (undoItem_of batch (cmd s)) as [undoItem|]; [|done].
    cbv zeta. set (m := bind _ _). set (s1 := mkState _ _).
    assert (preserves originals_kept m) as Hm.
    { apply (preserves_reversion originals_kept).
      - intros c delta undoDelta. apply originals_kept_set.
      - by intros c k.
      - by intros c k. }
    apply (Hm s1).
  - intros rb undoDelta s1 updated originalDeltas.
    pose proof (revert_delta_eq rb undoDelta s1) as Heq. simpl in Heq.
    fold updated in Heq. rewrite register_originals_map in Heq.
    fold originalDeltas in Heq. rewrite Heq.
    destruct (postFix originalDeltas _ _ _); simpl;
      by rewrite register_originals_map.
Qed.

End Originals.

(** C10, at the scenario: the entry the first undo step files for delta 22
    is there after the second step. *)
Lemma original_deltas_kept_by_command_witness :
  is_Some (_originalDeltas (cmd (_doExecute None Scenario.one_step).2) !! 22%nat).
Proof.
  apply (proj1 (original_deltas_kept_by_command None Scenario.one_step)).
  exists Scenario.move_f. reflexivity.
Defined.

(** C10 does not hold as stated.  The undo command of the scenario starts
    with an empty map.  When its first step has completed the map holds the
    entry of delta 22, the delta that step applied.  The second step finds
    delta 22 in the history with the target of its own move, looks both
    deltas up in the map and shifts its move by one node; with the map
    emptied between the steps the move is not shifted. *)
Lemma original_deltas_outlive_the_step :
  _originalDeltas (cmd Scenario.two_steps) = ∅
  ∧ (_doExecute None Scenario.two_steps).1 = Normal tt
  ∧ _originalDeltas (cmd Scenario.one_step) !! 22%nat = Some Scenario.move_f
  ∧ deltas (batch_at (world (_doExecute None Scenario.one_step).2) 4%nat)
    = [with_batch 4%nat (shift_delta 1 Scenario.undo_move_oo)]
  ∧ deltas (batch_at (world (_doExecute None Scenario.one_step_forgetful).2) 4%nat)
    = [with_batch 4%nat Scenario.undo_move_oo].
Proof. vm_compute. done. Qed.

(** * Further properties of the commands and of the engine *)

(** ** Changes delivered more than once *)

Section Redelivery.
Context `{EngineApi}.

Lemma addBatch_registers batch w c : batch ∈ _batchRegistry (addBatch batch w c).
Proof.
  destruct (decide (batch ∈ _batchRegistry c)) as [Hb|Hb].
  - by rewrite addBatch_registered.
  - destruct (stack_batches_addBatch_new batch w c Hb) as [_ ->]. set_solver.
Qed.

Lemma addBatch_twice batch w1 w2 c :
  addBatch batch w2 (addBatch batch w1 c) = addBatch batch w1 c.
Proof. apply addBatch_registered, addBatch_registers. Qed.

Lemma addBatch_keeps_registered b batch w c :
  b ∈ _batchRegistry c → b ∈ _batchRegistry (addBatch batch w c).
Proof.
  intros Hb. destruct (decide (batch ∈ _batchRegistry c)) as [Hin|Hin].
  - by rewrite addBatch_registered.
  - destruct (stack_batches_addBatch_new batch w c Hin) as [_ ->]. set_solver.
Qed.

Lemma doExecute_keeps_registered b batch s :
  batch ≠ Some b → b ∈ _batchRegistry (cmd s) →
  b ∈ _batchRegistry (cmd (_doExecute batch s).2).
Proof.
  intros Hne Hb. destruct (_doExecute_stack batch s) as (_ & -> & _).
  unfold without_undoItem, batchRegistry_delete. simpl.
  destruct batch as [b'|]; [|done].
  apply elem_of_difference. split; [done|].
  intros ->%elem_of_singleton. by apply Hne.
Qed.

Lemma run_event_keeps_registered batch event e :
  ¬ step_given batch event →
  (batch ∈ _batchRegistry (_undoCommand e) →
   batch ∈ _batchRegistry (_undoCommand (run_event e event)))
  ∧ (batch ∈ _batchRegistry (_redoCommand e) →
     batch ∈ _batchRegistry (_redoCommand (run_event e event))).
Proof.
  intros Hspared. destruct event as [b w|b w|b w]; simpl.
  - unfold on_change. repeat case_bool_decide; simpl;
      split; try done; apply addBatch_keeps_registered.
  - split; [|done].
    apply (doExecute_keeps_registered batch b {| cmd := _undoCommand e; world := w |}).
    intros ->. by apply Hspared.
  - split; [done|].
    apply (doExecute_keeps_registered batch b {| cmd := _redoCommand e; world := w |}).
    intros ->. by apply Hspared.
Qed.

Lemma run_events_keep_registered batch events e :
  Forall (λ event, ¬ step_given batch event) events →
  (batch ∈ _batchRegistry (_undoCommand e) →
   batch ∈ _batchRegistry (_undoCommand (run_events events e)))
  ∧ (batch ∈ _batchRegistry (_redoCommand e) →
     batch ∈ _batchRegistry (_redoCommand (run_events events e))).
Proof.
  intros Hspared. revert e.
  induction Hspared as [|event events Hevent _ IH]; intros e; [done|].
  simpl. destruct (IH (run_event e event)) as [IHu IHr].
  destruct (run_event_keeps_registered batch event e Hevent) as [Hu Hr].
  split; intros Hb; [by apply IHu, Hu|by apply IHr, Hr].
Qed.

Lemma UndoEngine_eta (e : UndoEngine) :
  {| _undoCommand := _undoCommand e; _redoCommand := _redoCommand e |} = e.
Proof. by destruct e. Qed.

(** X1.  A batch is recorded once.  When a batch is delivered on the
    change stream again, with the type it had the first time, after any
    changes and any steps of the two commands in between, none of them a
    step given that very batch, the command that recorded it is left as it
    is: no second item, no other saved selection.  For a batch of type
    'undo' or 'redo', or of a type the listener ignores, the whole engine
    is left as it is.  For a batch without a type the redo stack is cleared
    again, and whatever it had gained in between is lost.  Delivered twice
    in a row, a batch changes nothing the second time. *)
Theorem redelivered_batch_is_recorded_once (batch : BatchRef) (w1 w2 : World)
    (events : list EngineEvent) (e : UndoEngine) :
  Forall (λ event, ¬ step_given batch event) events →
  batch_type (batch_at w2 batch) = batch_type (batch_at w1 batch) →
  let e1 := run_events events (on_change batch w1 e) in
  let e2 := on_change batch w2 e1 in
  (batch_type (batch_at w1 batch) = None →
     _undoCommand e2 = _undoCommand e1
     ∧ _redoCommand e2 = clearStack (_redoCommand e1))
  ∧ (batch_type (batch_at w1 batch) ≠ None → e2 = e1)
  ∧ (events = [] → e2 = e1).
Proof.
  intros Hspared Hty e1 e2.
  destruct (run_events_keep_registered batch events (on_change batch w1 e) Hspared)
    as [Hu Hr].
  fold e1 in Hu, Hr. split_and!.
  - intros Hnone. subst e2. unfold on_change. rewrite Hty.
    rewrite !bool_decide_true by done. simpl.
    split; [|done]. apply addBatch_registered, Hu.
    unfold on_change. rewrite bool_decide_true by done. simpl.
    apply addBatch_registers.
  - intros Hsome. subst e2. unfold on_change. rewrite Hty.
    rewrite bool_decide_false by done.
    case_bool_decide as Hundo.
    { rewrite addBatch_registered; [apply UndoEngine_eta|]. apply Hr.
      unfold on_change. rewrite bool_decide_false by done.
      rewrite bool_decide_true by done. simpl. apply addBatch_registers. }
    case_bool_decide as Hredo; [|done].
    rewrite addBatch_registered; [apply UndoEngine_eta|]. apply Hu.
    unfold on_change. rewrite !bool_decide_false by done.
    rewrite bool_decide_true by done. simpl. apply addBatch_registers.
  - intros ->. subst e2 e1. simpl. unfold on_change. rewrite Hty.
    destruct (bool_decide (batch_type (batch_at w1 batch) = None)); simpl.
    { by rewrite addBatch_twice. }
    destruct (bool_decide (batch_type (batch_at w1 batch) = Some "undo")); simpl.
    { by rewrite addBatch_twice. }
    destruct (bool_decide (batch_type (batch_at w1 batch) = Some "redo")); simpl.
    { by rewrite addBatch_twice. }
    done.
Qed.

End Redelivery.

(** X1, at the scenario: batch 1 and batch 2 are delivered, the undo
    command runs a step, which takes batch 2, and the change of its
    reversion batch, batch 3, is delivered; then batch 2 is delivered
    again. *)
Lemma redelivered_batch_is_recorded_once_witness :
  let e1 := run_events ScenarioRuns.after_second
              (on_change 2%nat Scenario.barofo
                 (on_change 1%nat Scenario.barofo init)) in
  let e2 := on_change 2%nat (world Scenario.one_step) e1 in
  _undoCommand e2 = _undoCommand e1
  ∧ _redoCommand e2 = clearStack (_redoCommand e1).
Proof.
  apply (redelivered_batch_is_recorded_once 2%nat Scenario.barofo
           (world Scenario.one_step) ScenarioRuns.after_second
           (on_change 1%nat Scenario.barofo init)).
  - repeat (apply Forall_cons; split; [by intros []|]). apply Forall_nil_2.
  - reflexivity.
  - reflexivity.
Defined.

(** In that run the undo stack holds batch 1 and the redo stack batch 3
    when batch 2 arrives again; afterwards the undo stack still holds
    batch 1 alone and the redo stack is empty. *)
Example redelivered_user_batch_clears_redo_stack :
  let e1 := run_events ScenarioRuns.after_second
              (on_change 2%nat Scenario.barofo
                 (on_change 1%nat Scenario.barofo init)) in
  let e2 := on_change 2%nat (world Scenario.one_step) e1 in
  stack_batches (_undoCommand e1) = [1%nat]
  ∧ stack_batches (_redoCommand e1) = [3%nat]
  ∧ stack_batches (_undoCommand e2) = [1%nat]
  ∧ stack_batches (_redoCommand e2) = [].
Proof. vm_compute. done. Qed.

(** ** The two stacks *)

Section TwoStacks.
Context `{EngineApi}.

Lemma stack_batches_addBatch batch w c b :
  b ∈ stack_batches (addBatch batch w c) → b ∈ stack_batches c ∨ b = batch.
Proof.
  intros [Hb|Hb]%(stack_batches_run_call (Call_addBatch batch w)); [by left|right].
  unfold recorded in Hb. simpl in Hb. set_solver.
Qed.

Lemma stack_batches_doExecute batch w c b :
  b ∈ stack_batches (cmd (_doExecute batch {| cmd := c; world := w |}).2) →
  b ∈ stack_batches c.
Proof.
  intros [Hb|Hb]%(stack_batches_run_call (Call_doExecute batch w)); [done|].
  unfold recorded in Hb. simpl in Hb. set_solver.
Qed.

Lemma run_events_typed ty events e :
  types_stable ty events →
  (∀ b, b ∈ stack_batches (_undoCommand e) → ty b = None ∨ ty b = Some "redo") →
  (∀ b, b ∈ stack_batches (_redoCommand e) → ty b = Some "undo") →
  (∀ b, b ∈ stack_batches (_undoCommand (run_events events e)) →
        ty b = None ∨ ty b = Some "redo")
  ∧ (∀ b, b ∈ stack_batches (_redoCommand (run_events events e)) →
          ty b = Some "undo").
Proof.
  revert e. induction events as [|event events IH]; intros e Hty Hu Hr; [done|].
  simpl. apply IH.
  - intros batch w Hin. apply Hty. by right.
  - destruct event as [batch w|batch w|batch w]; simpl.
    + assert (batch_type (batch_at w batch) = ty batch) as Hb by (apply Hty; by left).
      unfold on_change. rewrite Hb.
      case_bool_decide as H1; simpl.
      { intros b [?| ->]%stack_batches_addBatch; [by apply Hu|by left]. }
      case_bool_decide as H2; simpl; [done|].
      case_bool_decide as H3; simpl; [|done].
      intros b [?| ->]%stack_batches_addBatch; [by apply Hu|by right].
    + intros b Hb%stack_batches_doExecute. by apply Hu.
    + done.
  - destruct event as [batch w|batch w|batch w]; simpl.
    + assert (batch_type (batch_at w batch) = ty batch) as Hb by (apply Hty; by left).
      unfold on_change. rewrite Hb.
      case_bool_decide as H1; simpl.
      { intros b Hin. by apply elem_of_nil in Hin. }
      case_bool_decide as H2; simpl.
      { intros b [?| ->]%stack_batches_addBatch; [by apply Hr|done]. }
      case_bool_decide as H3; simpl; done.
    + done.
    + intros b Hb%stack_batches_doExecute. by apply Hr.
Qed.

(** X2.  As long as no batch changes its type between two deliveries, the
    undo stack of an engine only holds batches without a type or of type
    'redo' and the redo stack only batches of type 'undo', whatever changes
    were delivered and whatever steps the two commands ran.  So no batch is
    on both stacks at once. *)
Theorem stacks_hold_different_batches (ty : BatchRef → BatchType)
    (events : list EngineEvent) :
  types_stable ty events →
  let e := run_events events init in
  (∀ b, b ∈ stack_batches (_undoCommand e) → ty b = None ∨ ty b = Some "redo")
  ∧ (∀ b, b ∈ stack_batches (_redoCommand e) → ty b = Some "undo")
  ∧ (∀ b, b ∈ stack_batches (_undoCommand e) → b ∉ stack_batches (_redoCommand e)).
Proof.
  intros Hty e.
  destruct (run_events_typed ty events init Hty) as [Hu Hr].
  { intros b Hb. by apply elem_of_nil in Hb. }
  { intros b Hb. by apply elem_of_nil in Hb. }
  split_and!; [done|done|].
  intros b Hb1 Hb2. apply Hu in Hb1. apply Hr in Hb2.
  destruct Hb1 as [Hb1|Hb1]; congruence.
Qed.

End TwoStacks.

(** X2, at the scenario: after the first undo step and the delivery of its
    reversion batch, batch 3 is on the redo stack, so it is not on the undo
    stack. *)
Lemma stacks_hold_different_batches_witness :
  3%nat ∉ stack_batches (_undoCommand (run_events ScenarioRuns.one_undo init)).
Proof.
  intros Hin.
  destruct (stacks_hold_different_batches ScenarioRuns.one_undo_types
              ScenarioRuns.one_undo) as (_ & _ & Hapart).
  - intros batch w Hin'. unfold ScenarioRuns.one_undo in Hin'.
    repeat (apply elem_of_cons in Hin' as [Heq|Hin'];
            [first [discriminate Heq
                   |injection Heq as -> ->; vm_compute; reflexivity]|]).
    by apply elem_of_nil in Hin'.
  - apply (Hapart 3%nat Hin). vm_compute. apply list_elem_of_In. simpl. auto.
Defined.

(** ** Enabled state and the 'revert' event *)

Section Bookkeeping.
Context `{EngineApi}.

#[global] Instance same_bookkeeping_preorder : PreOrder same_bookkeeping.
Proof.
  split.
  - by intros c.
  - intros c1 c2 c3 (Hf & He & Hi) (Hf' & He' & Hi'). unfold same_bookkeeping.
    by rewrite Hf', He', Hi'.
Qed.

Lemma reversion_loop_bookkeeping undoDeltas rb s :
  same_bookkeeping (cmd s) (cmd (forOf undoDeltas (revert_delta rb) s).2).
Proof.
  revert s. apply (preserves_forOf same_bookkeeping). intros d.
  by apply (preserves_revert_delta same_bookkeeping).
Qed.

Lemma doExecute_outcome batch s :
  match _doExecute batch s with
  | (Normal _, s') =>
      ∃ undoItem, undoItem_of batch (cmd s) = Some undoItem
                  ∧ fired (cmd s') = fired (cmd s) ++ [item_batch undoItem]
                  ∧ isEnabled (cmd s') = _checkEnabled (cmd s')
                  ∧ _items (cmd s') = _items (without_undoItem batch (cmd s))
  | (Throw _, s') =>
      fired (cmd s') = fired (cmd s) ∧ isEnabled (cmd s') = isEnabled (cmd s)
  end.
Proof.
  rewrite _doExecute_eq. destruct (undoItem_of batch (cmd s)) as [undoItem|]; [|done].
  cbv zeta. set (s0 := mkState _ _). unfold bind at 1.
  pose proof (reversion_loop_bookkeeping
                (reverse (deltas (batch_at (world s) (item_batch undoItem))))
                (alloc_Batch (world s)).1 s0) as (Hf1 & He1 & Hi1).
  destruct (forOf _ _ s0) as [[[]|e1] s1]; simpl in *; [|done].
  unfold bind at 1.
  pose proof (preserves_transform_selection same_bookkeeping undoItem s1)
    as (Hf2 & He2 & Hi2).
  destruct (transform_selection undoItem s1) as [[[]|e2] s2]; simpl in *.
  - exists undoItem. rewrite Hf2, Hf1, Hi2, Hi1. by split_and!.
  - by rewrite Hf2, Hf1, He2, He1.
Qed.

(** X3.  [isEnabled] follows the stack through every call that completes:
    it is right after [clearStack], it stays right through [addBatch], and a
    step that completes leaves it right and fires 'revert' once, with the
    batch of the item it took.  A step that throws fires nothing and leaves
    [isEnabled] as it was, although it may have taken an item. *)
Theorem enabled_state_follows_completed_calls :
  (∀ c, enabled_in_sync (clearStack c))
  ∧ (∀ batch w c, enabled_in_sync c → enabled_in_sync (addBatch batch w c))
  ∧ (∀ batch s s',
       _doExecute batch s = (Normal tt, s') →
       enabled_in_sync (cmd s')
       ∧ ∃ undoItem, undoItem_of batch (cmd s) = Some undoItem
                     ∧ fired (cmd s') = fired (cmd s) ++ [item_batch undoItem])
  ∧ (∀ batch s e s',
       _doExecute batch s = (Throw e, s') →
       isEnabled (cmd s') = isEnabled (cmd s) ∧ fired (cmd s') = fired (cmd s)).
Proof.
  split_and!.
  - done.
  - intros batch w c Hc. unfold addBatch. by destruct (negb _).
  - intros batch s s' Hrun. pose proof (doExecute_outcome batch s) as Hout.
    rewrite Hrun in Hout. destruct Hout as (undoItem & Hitem & Hf & He & _).
    split; [done|]. by exists undoItem.
  - intros batch s e s' Hrun. pose proof (doExecute_outcome batch s) as Hout.
    rewrite Hrun in Hout. by destruct Hout.
Qed.

End Bookkeeping.

(** X3, at the scenario: the first undo step completes, and a step of a
    new command throws. *)
Lemma enabled_state_follows_completed_calls_witness :
  enabled_in_sync (cmd Scenario.one_step)
  ∧ fired (cmd (@_doExecute FlatText.api None
                  {| cmd := constructor (Some "undo"); world := Scenario.barofo |}).2)
    = [].
Proof.
  destruct (@enabled_state_follows_completed_calls FlatText.api)
    as (_ & _ & Hnormal & Hthrow).
  split.
  - apply (Hnormal None Scenario.two_steps Scenario.one_step). reflexivity.
  - apply (Hthrow None {| cmd := constructor (Some "undo"); world := Scenario.barofo |}
             TypeError
             {| cmd := constructor (Some "undo"); world := Scenario.barofo |}).
    reflexivity.
Defined.

(** ** Taking items off the stack *)

Section Taking.
Context `{EngineApi}.

Lemma filter_keeps_all {A} (P : A → Prop) `{∀ x, Decision (P x)} (l : list A) :
  Forall P l → filter P l = l.
Proof.
  induction 1 as [|x l Hx _ IH]; [done|]. by rewrite filter_cons_True, IH.
Qed.

Lemma take_drop_filter (l : list BatchRef) n b :
  NoDup l → l !! n = Some b →
  take n l ++ drop (S n) l = filter (λ x, x ≠ b) l.
Proof.
  intros Hnd Hn. rewrite <- (take_drop_middle l n b Hn) at 3.
  rewrite <- (take_drop_middle l n b Hn) in Hnd.
  apply NoDup_app in Hnd as (_ & Hleft & Hright).
  apply NoDup_cons in Hright as [Hright _].
  rewrite filter_app, filter_cons_False by (intros Hne; by apply Hne).
  f_equal; symmetry; apply filter_keeps_all, Forall_forall; intros x Hx ->.
  - apply (Hleft b Hx). by left.
  - done.
Qed.

Lemma undoItem_of_batch b c :
  b ∈ stack_batches c →
  ∃ n undoItem, undoItem_of (Some b) c = Some undoItem
                ∧ item_batch undoItem = b
                ∧ _items c !! n = Some undoItem
                ∧ _items (without_undoItem (Some b) c)
                  = take n (_items c) ++ drop (S n) (_items c).
Proof.
  intros Hb. unfold undoItem_of, without_undoItem, splice_one, batchIndex. simpl.
  destruct (findIndex_spec (λ a, bool_decide (item_batch a = b)) (_items c))
    as [[_ Hall]|(i & x & -> & Hi & Hx)].
  - apply list_elem_of_fmap in Hb as (x & -> & Hx).
    rewrite Forall_forall in Hall. apply Hall in Hx.
    by rewrite bool_decide_true in Hx.
  - rewrite bool_decide_false by lia. apply lookup_lt_Some in Hi as Hlt.
    replace (Z.to_nat (Z.min (Z.of_nat i) (Z.of_nat (length (_items c))))) with i by lia.
    exists i, x. split_and!; [done| |done|done]. by apply bool_decide_eq_true in Hx.
Qed.

(** X4.  A step given a batch that is on the stack takes the item of that
    batch and no other: the other batches keep their order, the identity of
    the batch leaves the registry, and the batch can be recorded again,
    landing on top.  A registry that held exactly the batches of the stack
    still does. *)
Theorem given_batch_is_taken_and_unregistered (b : BatchRef) (s : State) :
  stack_registered (cmd s) →
  b ∈ stack_batches (cmd s) →
  let c' := cmd (_doExecute (Some b) s).2 in
  (∃ undoItem, undoItem_of (Some b) (cmd s) = Some undoItem
               ∧ item_batch undoItem = b)
  ∧ stack_batches c' = filter (λ x, x ≠ b) (stack_batches (cmd s))
  ∧ _batchRegistry c' = _batchRegistry (cmd s) ∖ {[ b ]}
  ∧ (∀ w, stack_batches (addBatch b w c') = stack_batches c' ++ [b])
  ∧ (registry_exact (cmd s) → registry_exact c').
Proof.
  intros Hreg Hb c'.
  destruct (undoItem_of_batch b (cmd s) Hb) as (n & undoItem & Hitem & Hbatch & Hn & Hrest).
  destruct (_doExecute_stack (Some b) s) as (Hi & Hr & _). fold c' in Hi, Hr.
  assert (stack_batches c' = filter (λ x, x ≠ b) (stack_batches (cmd s))) as Hstack.
  { unfold stack_batches at 1. rewrite Hi, Hrest, fmap_app, fmap_take, fmap_drop.
    apply take_drop_filter; [apply Hreg|].
    unfold stack_batches. by rewrite list_lookup_fmap, Hn, <- Hbatch. }
  assert (_batchRegistry c' = _batchRegistry (cmd s) ∖ {[ b ]}) as Hregistry.
  { by rewrite Hr. }
  assert (b ∉ _batchRegistry c') as Hfree by (rewrite Hregistry; set_solver).
  split_and!; [by exists undoItem|done|done| |].
  - intros w. destruct (stack_batches_addBatch_new b w c' Hfree) as [Hpush _].
    unfold stack_batches at 1. by rewrite Hpush, fmap_app.
  - intros [_ Hexact]. split.
    + by apply (stack_registered_doExecute (Some b) s).
    + intros x. rewrite Hregistry, Hstack. intros [Hx Hne]%elem_of_difference.
      apply list_elem_of_filter. split; [set_solver|by apply Hexact].
Qed.

(** X5.  Without a batch a step takes the item added last, and nothing
    else off the stack.  So a batch that is new to the command is the one
    the next step takes, with the selection saved for it, and that step
    leaves the stack as it was before the batch was added. *)
Theorem last_added_is_taken_first (s : State) :
  (∀ items top,
      _items (cmd s) = items ++ [top] →
      undoItem_of None (cmd s) = Some top
      ∧ _items (cmd (_doExecute None s).2) = items)
  ∧ (∀ batch w,
       batch ∉ _batchRegistry (cmd s) →
       let pushed := {| cmd := addBatch batch w (cmd s); world := world s |} in
       undoItem_of None (cmd pushed)
       = Some {| item_batch := batch;
                 selection := {| ranges := selection_getRanges (doc w);
                                 isBackward := selection_isBackward (doc w) |} |}
       ∧ _items (cmd (_doExecute None pushed).2) = _items (cmd s)).
Proof.
  assert (∀ s' items top,
            _items (cmd s') = items ++ [top] →
            undoItem_of None (cmd s') = Some top
            ∧ _items (cmd (_doExecute None s').2) = items) as Hlast.
  { intros s' items top Hitems.
    destruct (_doExecute_stack None s') as (-> & _).
    unfold undoItem_of, without_undoItem, batchIndex.
    cbn [_items batchRegistry_delete set_items]. rewrite Hitems.
    rewrite <- splice_one_minus_one by (by destruct items).
    by rewrite splice_one_last. }
  split; [apply Hlast|].
  intros batch w Hnew pushed. apply Hlast. subst pushed. simpl.
  by destruct (stack_batches_addBatch_new batch w (cmd s) Hnew) as [-> _].
Qed.

End Taking.

(** X4, at the scenario: batch 1 is on the stack of [two_steps], below
    batch 2. *)
Lemma given_batch_is_taken_and_unregistered_witness :
  stack_batches (cmd (_doExecute (Some 1%nat) Scenario.two_steps).2)
  = filter (λ x, x ≠ 1%nat) (stack_batches (cmd Scenario.two_steps)).
Proof.
  apply (given_batch_is_taken_and_unregistered 1%nat Scenario.two_steps).
  - apply stack_registered_addBatch, stack_registered_addBatch,
      stack_registered_constructor.
  - vm_compute. apply list_elem_of_In. simpl. auto.
Defined.

(** X5, at the scenario: batch 7 is new to the undo command. *)
Lemma last_added_is_taken_first_witness :
  _items (cmd (_doExecute None
                 {| cmd := addBatch 7%nat Scenario.barofo (cmd Scenario.two_steps);
                    world := world Scenario.two_steps |}).2)
  = _items (cmd Scenario.two_steps).
Proof.
  apply (proj2 (last_added_is_taken_first Scenario.two_steps) 7%nat Scenario.barofo).
  assert (bool_decide (7%nat ∈ _batchRegistry (cmd Scenario.two_steps)) = false) as Hnew
    by (vm_compute; reflexivity).
  by apply bool_decide_eq_false in Hnew.
Defined.

(** ** The store of batches during a step *)

Section Store.
Context `{EngineApi}.

Section PreservesWorld.
Context (R : relation World) `{!PreOrder R}.

Lemma preserves_world_ret {A} (a : A) : preserves_world R (ret a).
Proof. intros s. reflexivity. Qed.

Lemma preserves_world_lift {A} (c : Completion A) : preserves_world R (lift c).
Proof. intros s. reflexivity. Qed.

Lemma preserves_world_get : preserves_world R get.
Proof. intros s. reflexivity. Qed.

Lemma preserves_world_modify_cmd f : preserves_world R (modify_cmd f).
Proof. intros s. reflexivity. Qed.

Lemma preserves_world_modify_world f :
  (∀ w, R w (f w)) → preserves_world R (modify_world f).
Proof. intros Hf s. apply Hf. Qed.

Lemma preserves_world_bind {A B} (m : Exec A) (k : A → Exec B) :
  preserves_world R m → (∀ a, preserves_world R (k a)) → preserves_world R (bind m k).
Proof.
  intros Hm Hk s. unfold bind. specialize (Hm s).
  destruct (m s) as [[a|e] s1]; simpl in *; [|done].
  etransitivity; [exact Hm|apply Hk].
Qed.

Lemma preserves_world_forOf {A} (l : list A) (body : A → Exec unit) :
  (∀ x, preserves_world R (body x)) → preserves_world R (forOf l body).
Proof.
  intros Hb. induction l as [|x l IH]; simpl.
  - apply preserves_world_ret.
  - apply preserves_world_bind; [apply Hb|done].
Qed.

End PreservesWorld.

#[global] Instance same_batches_but_preorder rb : PreOrder (same_batches_but rb).
Proof.
  split.
  - by intros w.
  - intros w1 w2 w3 [H12 S12] [H23 S23]. split.
    + intros b Hb. by rewrite H23, H12.
    + intros Hin. by apply S23, S12.
Qed.

Lemma same_batches_but_doc rb w (f : Doc → Doc) :
  same_batches_but rb w {| doc := f (doc w); batches := batches w |}.
Proof. by split. Qed.

Lemma same_batches_but_insert rb w d (x : Batch) :
  same_batches_but rb w {| doc := d; batches := <[rb := x]> (batches w) |}.
Proof.
  split; simpl.
  - intros b Hb. by rewrite lookup_insert_ne.
  - intros _. rewrite lookup_insert_eq. by eexists.
Qed.

Lemma reversion_keeps_other_batches rb undoDeltas undoItem undoBatch :
  preserves_world (same_batches_but rb)
    (forOf undoDeltas (revert_delta rb) ;;;
     transform_selection undoItem ;;;
     modify_cmd refreshState ;;;
     modify_cmd (fire_revert undoBatch)).
Proof.
  apply preserves_world_bind; [apply _| |intros _].
  { apply preserves_world_forOf; [apply _|]. intros undoDelta. unfold revert_delta.
    apply preserves_world_bind; [apply _|apply preserves_world_get; apply _|intros s1].
    apply preserves_world_bind; [apply _| |intros _].
    { apply preserves_world_forOf; [apply _|]. intros d.
      apply preserves_world_modify_cmd, _. }
    apply preserves_world_bind; [apply _|apply preserves_world_get; apply _|intros s2].
    apply preserves_world_bind; [apply _|apply preserves_world_lift; apply _|intros fixed].
    apply preserves_world_forOf; [apply _|]. intros d. unfold add_and_apply.
    apply preserves_world_bind; [apply _| |intros _].
    { apply preserves_world_modify_world. intros w. apply same_batches_but_insert. }
    apply preserves_world_forOf; [apply _|]. intros o.
    apply preserves_world_modify_world. intros w. apply same_batches_but_doc. }
  apply preserves_world_bind; [apply _| |intros _].
  { unfold transform_selection.
    apply preserves_world_bind; [apply _|apply preserves_world_get; apply _|intros s1].
    apply preserves_world_bind; [apply _|apply preserves_world_lift; apply _|intros d].
    apply preserves_world_modify_world. intros w. apply same_batches_but_doc. }
  apply preserves_world_bind; [apply _| |intros _];
    apply preserves_world_modify_cmd, _.
Qed.

Lemma before_reversion_store batch s :
  batches (world (before_reversion batch s))
  = <[(alloc_Batch (world s)).1 := {| batch_type := _type (cmd s); deltas := [] |}]>
      (batches (world s)).
Proof.
  unfold before_reversion, set_type, batch_at, alloc_Batch. simpl.
  by rewrite lookup_insert_eq, insert_insert_eq.
Qed.

(** X7.  A step creates one batch object, its reversion batch, and writes
    to no other: every other batch of the store, the reverted one among
    them, has its type and its deltas as before, whether the step completes
    or throws.  A step that finds no item leaves the whole world as it is. *)
Theorem step_writes_to_its_reversion_batch_only (batch : option BatchRef) (s : State) :
  let reversionBatch := (alloc_Batch (world s)).1 in
  let s' := (_doExecute batch s).2 in
  (reversionBatch ∉ dom (batches (world s)))
  ∧ (∀ b, b ≠ reversionBatch → batches (world s') !! b = batches (world s) !! b)
  ∧ (undoItem_of batch (cmd s) = None → world s' = world s)
  ∧ (∀ undoItem,
       undoItem_of batch (cmd s) = Some undoItem →
       dom (batches (world s')) = {[ reversionBatch ]} ∪ dom (batches (world s))
       ∧ (item_batch undoItem ∈ dom (batches (world s)) →
          batch_at (world s') (item_batch undoItem)
          = batch_at (world s) (item_batch undoItem))).
Proof.
  intros rb s'. pose proof (alloc_Batch_fresh (world s)) as Hfresh. fold rb in Hfresh.
  assert (∀ undoItem, undoItem_of batch (cmd s) = Some undoItem →
            same_batches_but rb (world (before_reversion batch s)) (world s'))
    as Hframe.
  { intros undoItem Hitem. subst s'. rewrite _doExecute_eq, Hitem. cbv zeta.
    apply (reversion_keeps_other_batches rb _ undoItem (item_batch undoItem)
             (before_reversion batch s)). }
  assert (∀ b, b ≠ rb → batches (world s') !! b = batches (world s) !! b) as Hother.
  { intros b Hb. destruct (undoItem_of batch (cmd s)) as [undoItem|] eqn:Hitem.
    - destruct (Hframe undoItem eq_refl) as [Hsame _]. rewrite Hsame by done.
      rewrite before_reversion_store. by rewrite lookup_insert_ne.
    - subst s'. by rewrite _doExecute_eq, Hitem. }
  split_and!; [done|done| |].
  - intros Hitem. subst s'. by rewrite _doExecute_eq, Hitem.
  - intros undoItem Hitem. split.
    + destruct (Hframe undoItem Hitem) as [_ Hstays].
      apply set_eq. intros b. rewrite elem_of_union, elem_of_singleton, !elem_of_dom.
      destruct (decide (b = rb)) as [->|Hb].
      * split; [by left|]. intros _. apply Hstays.
        rewrite before_reversion_store, lookup_insert_eq. by eexists.
      * rewrite Hother by done. split; [by right|]. by intros [?|?].
    + intros Hin. unfold batch_at. rewrite Hother; [done|].
      intros Heq. rewrite Heq in Hin. by apply Hfresh.
Qed.

(** X6.  A step on an item whose batch has no delta throws a TypeError
    when it reads the base version of the first delta.  By then the item is
    off the stack and the reversion batch is created; nothing is applied to
    the document, the selection is not set, 'revert' is not fired and
    [isEnabled] is not refreshed. *)
Theorem step_on_batch_without_deltas_throws (batch : option BatchRef) (s : State)
    (undoItem : Item) :
  undoItem_of batch (cmd s) = Some undoItem →
  deltas (batch_at (world s) (item_batch undoItem)) = [] →
  _doExecute batch s = (Throw TypeError, before_reversion batch s)
  ∧ doc (world (before_reversion batch s)) = doc (world s)
  ∧ _items (cmd (before_reversion batch s)) = _items (without_undoItem batch (cmd s))
  ∧ fired (cmd (before_reversion batch s)) = fired (cmd s)
  ∧ isEnabled (cmd (before_reversion batch s)) = isEnabled (cmd s).
Proof.
  intros Hitem Hempty. split; [|done].
  rewrite _doExecute_eq, Hitem. cbv zeta. rewrite Hempty.
  set (s0 := mkState _ _).
  assert (s0 = before_reversion batch s) as -> by done.
  change (forOf (reverse []) ?body) with (@ret _ unit tt).
  unfold bind at 1, ret. unfold bind at 1. rewrite transform_selection_eq.
  assert (deltas (batch_at (world (before_reversion batch s)) (item_batch undoItem)) = [])
    as ->; [|done].
  unfold batch_at. rewrite before_reversion_store.
  destruct (decide (item_batch undoItem = (alloc_Batch (world s)).1)) as [->|Hne].
  - by rewrite lookup_insert_eq.
  - rewrite lookup_insert_ne by done. exact Hempty.
Qed.

End Store.

(** X6, at the scenario: batch 9 is on the stack and has no delta. *)
Lemma step_on_batch_without_deltas_throws_witness :
  _doExecute None ScenarioEdges.hollow_step
  = (Throw TypeError, before_reversion None ScenarioEdges.hollow_step).
Proof.
  apply (step_on_batch_without_deltas_throws None ScenarioEdges.hollow_step
           (mkItem 9%nat (mkSelectionState [Scenario.caret] false))).
  - reflexivity.
  - reflexivity.
Defined.

(** X7, at the scenario: the first undo step reverts batch 2, which is in
    the store, and leaves it as it was. *)
Lemma step_writes_to_its_reversion_batch_only_witness :
  batch_at (world (_doExecute None Scenario.two_steps).2) 2%nat
  = batch_at (world Scenario.two_steps) 2%nat.
Proof.
  destruct (step_writes_to_its_reversion_batch_only None Scenario.two_steps)
    as (_ & _ & _ & Hitem).
  destruct (Hitem (mkItem 2%nat (mkSelectionState [Scenario.caret] false)) eq_refl)
    as [_ Hsame].
  apply Hsame. apply elem_of_dom. exists (mkBatch None [Scenario.move_f]). reflexivity.
Defined.

(** ** What the post-fix leaves alone *)

Section PostFixFrame.
Context `{EngineApi}.

Lemma add_offset_shape n p :
  root (add_offset n p) = root p ∧ length (path (add_offset n p)) = length (path p).
Proof.
  destruct p as [r l]. unfold add_offset, offset. simpl.
  destruct l as [|x l _] using rev_ind; [done|].
  rewrite last_snoc. simpl. by rewrite removelast_last, !length_app.
Qed.

Lemma repositioned_refl d : repositioned d d.
Proof.
  unfold repositioned. split_and!; try done.
  destruct (operations d) as [|o os]; [done|]. split; [|done].
  by destruct o.
Qed.

Lemma repositioned_operation_trans o1 o2 o3 :
  repositioned_operation o1 o2 → repositioned_operation o2 o3 →
  repositioned_operation o1 o3.
Proof.
  destruct o1, o2, o3; simpl; try congruence; try done.
  intros (-> & -> & -> & -> & -> & -> & ->) (-> & -> & -> & -> & -> & -> & ->).
  done.
Qed.

Lemma repositioned_trans d1 d2 d3 :
  repositioned d1 d2 → repositioned d2 d3 → repositioned d1 d3.
Proof.
  intros (Hi & Hm & Hv & Hb & Ho) (Hi' & Hm' & Hv' & Hb' & Ho').
  unfold repositioned. rewrite Hi', Hm', Hv', Hb'. split_and!; try done.
  destruct (operations d1) as [|o1 os1], (operations d2) as [|o2 os2],
    (operations d3) as [|o3 os3]; try done.
  destruct Ho as [Ho ->], Ho' as [Ho' ->].
  split; [|done]. by eapply repositioned_operation_trans.
Qed.

Lemma repositioned_shift n d : repositioned d (shift_delta n d).
Proof.
  unfold repositioned, shift_delta. simpl. split_and!; try done.
  destruct (operations d) as [|o os]; [done|]. split; [|done].
  destruct o as [| ty s k t m |]; simpl; try done.
  destruct (add_offset_shape n t) as [-> ->].
  by destruct (add_offset_shape n m) as [-> ->].
Qed.

Lemma postFix_scan_repositioned o w u hs u' :
  postFix_scan o w u hs = Normal u' → repositioned u u'.
Proof.
  revert u. induction hs as [|h hs IH]; intros u; simpl.
  { intros [= ->]. apply repositioned_refl. }
  destruct (postFix_inner o w u h) as [u1|e] eqn:Hin; simpl; [|done].
  intros Hscan%IH. eapply repositioned_trans; [|exact Hscan].
  apply postFix_inner_normal in Hin as [(n & _ & ->)| ->].
  - apply repositioned_shift.
  - apply repositioned_refl.
Qed.

Lemma postFix_scan_unfiled o w u hs u' :
  o !! did u = None → postFix_scan o w u hs = Normal u' → u' = u.
Proof.
  intros Hu Hscan. apply (postFix_scan_unchanged _ _ _ _ _ Hscan).
  intros h n _ (_ & _ & _ & (origU & ? & ? & ? & ? & ? & HoU & _)). congruence.
Qed.

Lemma postFix_scan_quiet o w u hs :
  Forall (λ h, instanceofMoveDelta h = false ∨ not_a_reversion w h = true) hs →
  postFix_scan o w u hs = Normal u.
Proof.
  induction 1 as [|h hs Hh _ IH]; simpl; [done|].
  assert (postFix_inner o w u h = Normal u) as ->; [|done].
  unfold postFix_inner. destruct Hh as [->| ->]; [done|].
  by destruct (instanceofMoveDelta h).
Qed.

(** X8.  [postFix] returns the deltas it was given, as many and in the
    same order.  Each keeps its identity, its class, its base version, its
    batch and all its operations; only the first operation of a move delta
    may come back with other offsets in its target position and its
    moved-range start, still in the same roots and at the same depth.  A
    delta that is not a move delta, or that has no entry in the map of
    original deltas, comes back as it was.  Against a history without move
    deltas of 'undo' or 'redo' batches [postFix] completes and changes
    nothing. *)
Theorem postFix_only_repositions_moves (o : gmap DeltaId Delta) (w : World)
    (ds hs : list Delta) :
  (∀ fixed,
      postFix o w ds hs = Normal fixed →
      Forall2 repositioned ds fixed
      ∧ Forall2 (λ d f, instanceofMoveDelta d = false ∨ o !! did d = None → f = d)
                ds fixed)
  ∧ (Forall (λ h, instanceofMoveDelta h = false ∨ not_a_reversion w h = true) hs →
     postFix o w ds hs = Normal ds).
Proof.
  split.
  - induction ds as [|u ds IH]; intros fixed; simpl.
    { intros [= <-]. split; constructor. }
    destruct (instanceofMoveDelta u) eqn:Hmove; simpl.
    + destruct (postFix_scan o w u hs) as [u'|e] eqn:Hscan; simpl; [|done].
      destruct (postFix o w ds hs) as [rest|e]; simpl; [|done].
      intros [= <-]. destruct (IH rest eq_refl) as [Hrep Hsame].
      split; constructor; try done.
      * by eapply postFix_scan_repositioned.
      * intros [?|Hu]; [congruence|]. by eapply postFix_scan_unfiled.
    + destruct (postFix o w ds hs) as [rest|e]; simpl; [|done].
      intros [= <-]. destruct (IH rest eq_refl) as [Hrep Hsame].
      split; constructor; try done. apply repositioned_refl.
  - intros Hquiet. induction ds as [|u ds IH]; simpl; [done|].
    rewrite IH. destruct (instanceofMoveDelta u); simpl; [|done].
    by rewrite postFix_scan_quiet.
Qed.

End PostFixFrame.

(** X8, at the scenario: the history of "barofo" holds user batches only. *)
Lemma postFix_only_repositions_moves_witness :
  postFix Scenario.originals Scenario.barofo [Scenario.undo_move_oo]
          [Scenario.move_oo; Scenario.move_f]
  = Normal [Scenario.undo_move_oo].
Proof.
  apply (proj2 (postFix_only_repositions_moves Scenario.originals Scenario.barofo
                  [Scenario.undo_move_oo] [Scenario.move_oo; Scenario.move_f])).
  apply Forall_cons. split; [right; reflexivity|].
  apply Forall_cons. split; [right; reflexivity|].
  apply Forall_nil_2.
Defined.

(** ** More on the selection transformation *)

Section SelectionMore.
Context `{EngineApi} `{!SortLaws}.

Lemma pieces_without_result operation (l : list Range) :
  without_result operation → l ≫= pieces operation = l.
Proof.
  intros Hop. destruct operation; try done.
  induction l as [|r l IH]; [done|]. rewrite bind_cons, IH. done.
Qed.

Lemma transform_by_deltas_without_result deltas (l : list Range) :
  (∀ d o, d ∈ deltas → o ∈ operations d → without_result o) →
  transform_by_deltas deltas l = l.
Proof.
  intros Hquiet. rewrite transform_by_deltas_all_operations.
  assert (Forall without_result (all_operations deltas)) as Hall.
  { apply Forall_forall. intros o (d & Ho & Hd)%list_elem_of_bind. by eapply Hquiet. }
  induction Hall as [|o os Ho _ IH]; simpl; [done|].
  by rewrite pieces_without_result.
Qed.

Lemma filter_outside_graveyard (l : list Range) :
  omap (λ r, if not_in_graveyard r then Some r else None) l
  = filter (λ r, root (start r) ≠ Graveyard) l.
Proof.
  induction l as [|r l IH]; [done|]. cbn [omap list_omap]. rewrite IH.
  destruct (not_in_graveyard r) eqn:Hout; unfold not_in_graveyard in Hout.
  - apply negb_true_iff, bool_decide_eq_false in Hout.
    by rewrite filter_cons_True.
  - apply negb_false_iff, bool_decide_eq_true in Hout.
    by rewrite filter_cons_False by (intros Hne; by apply Hne).
Qed.

Lemma omap_no_longer {A B} (f : A → option B) (l : list A) :
  (length (omap f l) ≤ length l)%nat.
Proof.
  induction l as [|x l IH]; [done|]. cbn [omap list_omap].
  destruct (f x); simpl; lia.
Qed.

Lemma transformedRange_quiet deltas r :
  (∀ d o, d ∈ deltas → o ∈ operations d → without_result o) →
  transformedRange deltas r = if not_in_graveyard r then Some r else None.
Proof.
  intros Hquiet. unfold transformedRange.
  rewrite transform_by_deltas_without_result by done.
  rewrite sort_singleton. simpl. by destruct (not_in_graveyard r).
Qed.

(** X9.  When the history since the batch holds no insert, move, remove or
    reinsert operation (it may be empty), the saved ranges are restored as
    they were saved: [transformedRanges] holds the saved ranges that do not
    start in the graveyard, unchanged and in their order. *)
Theorem saved_ranges_survive_a_quiet_history (deltas : list Delta)
    (ranges : list Range) :
  (∀ d o, d ∈ deltas → o ∈ operations d → without_result o) →
  collect_transformedRanges deltas ranges []
  = filter (λ r, root (start r) ≠ Graveyard) ranges.
Proof.
  intros Hquiet. rewrite collect_transformedRanges_omap. simpl.
  rewrite <- filter_outside_graveyard. apply list_omap_ext.
  apply Forall2_same_length_lookup. split; [done|].
  intros i x y Hx Hy. rewrite Hx in Hy. injection Hy as <-.
  by apply transformedRange_quiet.
Qed.

(** X10.  Every saved range gives at most one restored range: the
    restored ranges are no more than the saved ones, each is what
    [transformedRange] makes of a saved range, they come in the order of
    the saved ranges, and none starts in the graveyard.  A selection of one
    range is never restored as several. *)
Theorem one_restored_range_per_saved_range (deltas : list Delta)
    (ranges : list Range) :
  let transformedRanges := collect_transformedRanges deltas ranges [] in
  (length transformedRanges ≤ length ranges)%nat
  ∧ Forall (λ r, root (start r) ≠ Graveyard) transformedRanges
  ∧ transformedRanges = omap (transformedRange deltas) ranges
  ∧ (∀ r, ranges = [r] →
          transformedRanges = [] ∨ ∃ r', transformedRanges = [r']).
Proof.
  intros transformedRanges. subst transformedRanges.
  rewrite collect_transformedRanges_omap. simpl. split_and!.
  - apply omap_no_longer.
  - apply Forall_forall. intros r' (r & Hr & Hsome)%list_elem_of_omap.
    unfold transformedRange in Hsome. apply find_some in Hsome as [_ Hout].
    unfold not_in_graveyard in Hout. apply negb_true_iff in Hout.
    by apply bool_decide_eq_false in Hout.
  - done.
  - intros r ->. simpl. destruct (transformedRange deltas r) as [r'|]; [right|by left].
    by exists r'.
Qed.

Lemma merge_touching_from_fixed a rest :
  neighbours (λ a b, isTouching (end_ a) (start b) = false) (a :: rest) →
  merge_touching_from a rest = a :: rest.
Proof.
  revert a. induction rest as [|b rest IH]; intros a; [done|].
  intros [Hh Hn]%neighbours_cons. simpl.
  rewrite (Hh b eq_refl). f_equal. by apply IH.
Qed.

Lemma merge_touching_fixed l :
  neighbours (λ a b, isTouching (end_ a) (start b) = false) l →
  merge_touching l = l.
Proof. destruct l as [|a rest]; [done|]. apply merge_touching_from_fixed. Qed.

(** X11.  Merging touching neighbours leaves an array without touching
    neighbours as it is, so merging a second time changes nothing.  The
    merged array is not longer than the array, it is empty only if the
    array is, its ranges start where ranges of the array start, in the same
    order, its first range starts where the first range of the array
    starts and its last range ends where the last range of the array ends. *)
Theorem merging_touching_ranges_is_idempotent (transformed : list Range) :
  (neighbours (λ a b, isTouching (end_ a) (start b) = false) transformed →
   merge_touching transformed = transformed)
  ∧ merge_touching (merge_touching transformed) = merge_touching transformed
  ∧ (length (merge_touching transformed) ≤ length transformed)%nat
  ∧ (merge_touching transformed = [] ↔ transformed = [])
  ∧ start <$> merge_touching transformed `sublist_of` start <$> transformed
  ∧ start <$> head (merge_touching transformed) = start <$> head transformed
  ∧ end_ <$> last (merge_touching transformed) = end_ <$> last transformed.
Proof.
  split_and!.
  - apply merge_touching_fixed.
  - apply merge_touching_fixed, merge_touching_apart.
  - destruct transformed as [|a rest]; [done|]. apply merge_touching_from_shape.
  - destruct transformed as [|a rest]; [done|]. simpl.
    destruct (merge_touching_from_head a rest) as (c & Hc & _).
    split; [|done]. intros Hnil. by rewrite Hnil in Hc.
  - destruct transformed as [|a rest]; [done|]. apply merge_touching_from_shape.
  - destruct transformed as [|a rest]; [done|]. simpl.
    destruct (merge_touching_from_head a rest) as (c & -> & Hs). simpl. by rewrite Hs.
  - destruct transformed as [|a rest]; [done|]. apply merge_touching_from_shape.
Qed.

Lemma neighbours_StronglySorted {A} (R : A → A → Prop) l :
  (∀ a b c, a ∈ l → b ∈ l → c ∈ l → R a b → R b c → R a c) →
  neighbours R l → StronglySorted R l.
Proof.
  induction l as [|a l IH]; intros Htrans Hn; [constructor|].
  apply neighbours_cons in Hn as [Hh Hn].
  assert (StronglySorted R l) as Hl.
  { apply IH; [|done]. intros x y z Hx Hy Hz. apply Htrans; by right. }
  apply StronglySorted_cons. split; [|done].
  destruct l as [|b l]; [done|].
  apply StronglySorted_cons in Hl as [Hb _].
  apply Forall_cons. split; [by apply Hh|].
  rewrite Forall_forall in Hb |- *. intros c Hc.
  apply (Htrans a b c); [by left|by right; left|by right; right|by apply Hh|by apply Hb].
Qed.

(** X12.  Where the comparator orders the array (no range twice, of any
    two exactly one starts before the other, transitively), sorting leaves
    an array alone whose every range starts before its right neighbour:
    ranges that are already in order are not moved, whatever runtime
    sorts them. *)
Theorem sorting_keeps_an_ascending_array (transformed : list Range) :
  orders compare_starts transformed →
  neighbours (λ a b, isBefore (start a) (start b) = true) transformed →
  sort compare_starts transformed = transformed.
Proof.
  intros Hord Hasc.
  destruct (orders_elements compare_starts transformed Hord) as [Htotal Htrans].
  apply (StronglySorted_unique_strong (λ a b, compare_starts a b < 0)).
  - intros a b Ha Hb Hab Hba. rewrite sort_permutes in Ha.
    destruct (decide (a = b)) as [|Hne]; [done|].
    destruct (Htotal a b Ha Hb Hne) as [[_ ?]|[_ ?]]; lia.
  - by apply sort_ascends.
  - apply neighbours_StronglySorted; [done|].
    intros i a b Ha Hb. apply compare_starts_negative. by apply (Hasc i).
  - apply sort_permutes.
Qed.

End SelectionMore.

Section SelectionMoreAtScenario.
#[local] Existing Instance FlatText.api.

(** X9, at the scenario: the history holds one rename. *)
Lemma saved_ranges_survive_a_quiet_history_witness :
  collect_transformedRanges [ScenarioEdges.rename] [Scenario.caret] []
  = [Scenario.caret].
Proof.
  rewrite (saved_ranges_survive_a_quiet_history [ScenarioEdges.rename] [Scenario.caret]).
  - reflexivity.
  - intros d o ->%list_elem_of_singleton ->%list_elem_of_singleton. exact I.
Defined.

(** X10, at the scenario: one saved range, the history of "barofo". *)
Lemma one_restored_range_per_saved_range_witness :
  collect_transformedRanges [Scenario.move_oo; Scenario.move_f] [Scenario.caret] [] = []
  ∨ ∃ r', collect_transformedRanges [Scenario.move_oo; Scenario.move_f]
            [Scenario.caret] [] = [r'].
Proof.
  destruct (one_restored_range_per_saved_range [Scenario.move_oo; Scenario.move_f]
              [Scenario.caret]) as (_ & _ & _ & Hone).
  exact (Hone Scenario.caret eq_refl).
Defined.

Lemma apart_do_not_touch :
  neighbours (λ a b, isTouching (end_ a) (start b) = false) ScenarioEdges.apart.
Proof.
  intros [|[|i]] a b Ha Hb; simpl in Ha, Hb; try done.
  by injection Ha as <-; injection Hb as <-.
Qed.

Lemma apart_ascend :
  neighbours (λ a b, isBefore (start a) (start b) = true) ScenarioEdges.apart.
Proof.
  intros [|[|i]] a b Ha Hb; simpl in Ha, Hb; try done.
  by injection Ha as <-; injection Hb as <-.
Qed.

Lemma apart_ordered : orders compare_starts ScenarioEdges.apart.
Proof. apply (bool_decide_unpack _). vm_compute. exact I. Qed.

(** X11, at the scenario: two ranges that do not touch. *)
Lemma merging_touching_ranges_is_idempotent_witness :
  merge_touching ScenarioEdges.apart = ScenarioEdges.apart.
Proof.
  apply (proj1 (merging_touching_ranges_is_idempotent ScenarioEdges.apart)).
  exact apart_do_not_touch.
Defined.

(** X12, at the scenario: the same two ranges are in order. *)
Lemma sorting_keeps_an_ascending_array_witness :
  sort compare_starts ScenarioEdges.apart = ScenarioEdges.apart.
Proof.
  apply (sorting_keeps_an_ascending_array ScenarioEdges.apart).
  - exact apart_ordered.
  - exact apart_ascend.
Defined.

End SelectionMoreAtScenario.

(** ** The earlier revision of UndoCommand *)

Section LegacyProperties.
Context `{EngineApi}.

Lemma splice_one_valid {A} (i : Z) (l : list A) :
  0 ≤ i < Z.of_nat (length l) →
  splice_one i l
  = (l !! Z.to_nat i, take (Z.to_nat i) l ++ drop (S (Z.to_nat i)) l).
Proof.
  intros Hi. unfold splice_one. rewrite bool_decide_false by lia.
  by replace (Z.min i (Z.of_nat (length l))) with i by lia.
Qed.

Lemma legacy_effective_index_valid batchIndex (stack : list BatchRef) :
  stack ≠ [] →
  0 ≤ Legacy.effective_index batchIndex stack < Z.of_nat (length stack).
Proof.
  intros Hne. assert (0 < length stack)%nat by (destruct stack; [done|simpl; lia]).
  unfold Legacy.effective_index. destruct batchIndex as [i|]; [|lia].
  case_bool_decide; lia.
Qed.

Lemma legacy_doExecute_command batchIndex c w :
  let c' := (Legacy._doExecute batchIndex c w).2.1 in
  Legacy._batchStack c'
  = (splice_one (Legacy.effective_index batchIndex (Legacy._batchStack c))
                (Legacy._batchStack c)).2
  ∧ Legacy._batchSelection c' = Legacy._batchSelection c.
Proof.
  unfold Legacy._doExecute.
  destruct (splice_one _ _) as [[undoBatch|] stack]; simpl; [|done].
  destruct (deltas _ !! 0%nat); simpl; [|done].
  by destruct (Legacy._batchSelection c !! undoBatch).
Qed.

(** X13.  The earlier [_doExecute( batchIndex )].  On an empty stack it
    throws a TypeError and changes nothing.  On a stack with batches it
    takes exactly one batch off: the one at [batchIndex] when that is an
    index of the stack, the last one when it is not or when no index is
    given, in which case the call does what a call without an index does.
    The other batches keep their order, and the ranges saved for the
    batches, the taken one among them, stay in the map. *)
Theorem legacy_step_takes_index_or_last (batchIndex : option Z)
    (c : Legacy.UndoCommand) (w : World) :
  let stack := Legacy._batchStack c in
  let n := Z.to_nat (Legacy.effective_index batchIndex stack) in
  let c' := (Legacy._doExecute batchIndex c w).2.1 in
  (stack = [] → Legacy._doExecute batchIndex c w = (Throw TypeError, (c, w)))
  ∧ (stack ≠ [] →
     is_Some (stack !! n)
     ∧ Legacy._batchStack c' = take n stack ++ drop (S n) stack
     ∧ S (length (Legacy._batchStack c')) = length stack)
  ∧ (∀ i, batchIndex = Some i → 0 ≤ i < Z.of_nat (length stack) → n = Z.to_nat i)
  ∧ ((∀ i, batchIndex = Some i → ¬ 0 ≤ i < Z.of_nat (length stack)) →
     n = (length stack - 1)%nat
     ∧ Legacy._doExecute batchIndex c w = Legacy._doExecute None c w)
  ∧ Legacy._batchSelection c' = Legacy._batchSelection c.
Proof.
  intros stack n c'. split_and!.
  - intros Hempty. unfold Legacy._doExecute. fold stack. rewrite Hempty.
    rewrite splice_one_nil. destruct c as [st sel f]. simpl in *. subst stack.
    by rewrite Hempty.
  - intros Hne. pose proof (legacy_effective_index_valid batchIndex stack Hne) as Hvalid.
    destruct (legacy_doExecute_command batchIndex c w) as [Hstack _].
    fold c' stack in Hstack. rewrite splice_one_valid in Hstack by done.
    simpl in Hstack. fold n in Hstack.
    assert (n < length stack)%nat as Hn by lia.
    split_and!; [by apply lookup_lt_is_Some|done|].
    rewrite Hstack, length_app, length_take, length_drop. lia.
  - intros i -> Hi. subst n. unfold Legacy.effective_index.
    by rewrite bool_decide_true.
  - intros Hinvalid.
    assert (Legacy.effective_index batchIndex stack = Legacy.effective_index None stack)
      as Heq.
    { unfold Legacy.effective_index. destruct batchIndex as [i|]; [|done].
      rewrite bool_decide_false; [done|]. by apply Hinvalid. }
    split.
    + subst n. rewrite Heq. unfold Legacy.effective_index. lia.
    + unfold Legacy._doExecute. fold stack. by rewrite Heq.
  - apply legacy_doExecute_command.
Qed.

Lemma legacy_saved_ranges calls :
  let c := Legacy.run_calls calls Legacy.constructor in
  ∀ b, b ∈ Legacy._batchStack c → is_Some (Legacy._batchSelection c !! b).
Proof.
  assert (∀ c0, (∀ b, b ∈ Legacy._batchStack c0 →
                      is_Some (Legacy._batchSelection c0 !! b)) →
           ∀ b, b ∈ Legacy._batchStack (Legacy.run_calls calls c0) →
                is_Some (Legacy._batchSelection (Legacy.run_calls calls c0) !! b))
    as Hinv.
  { induction calls as [|call calls IH]; intros c0 Hc0; [done|]. simpl. apply IH.
    destruct call as [batch w|batchIndex w]; simpl.
    - intros b [Hb| ->%list_elem_of_singleton]%elem_of_app.
      + rewrite lookup_insert. destruct (decide (batch = b)); [by eexists|by apply Hc0].
      + rewrite lookup_insert_eq. by eexists.
    - destruct (legacy_doExecute_command batchIndex c0 w) as [Hstack Hsel].
      intros b Hb. rewrite Hsel. apply Hc0. rewrite Hstack in Hb.
      eapply elem_of_sublist; [exact Hb|apply splice_one_sublist]. }
  intros c. apply Hinv. intros b Hb. by apply elem_of_nil in Hb.
Qed.

(** X14.  The earlier command has no registry: [addBatch] pushes the batch
    whether or not it is on the stack already and replaces the ranges
    saved for it.  In every state the command reaches from its construction
    every batch on the stack has saved ranges, so a step never throws for
    want of them: when the batch it takes has a first delta the step
    completes and fires 'undo' for that batch. *)
Theorem legacy_addBatch_always_pushes (calls : list Legacy.Call)
    (batch : BatchRef) (w1 w2 : World) :
  let c := Legacy.run_calls calls Legacy.constructor in
  Legacy._batchStack (Legacy.addBatch batch w2 (Legacy.addBatch batch w1 c))
  = Legacy._batchStack c ++ [batch; batch]
  ∧ Legacy._batchSelection (Legacy.addBatch batch w2 (Legacy.addBatch batch w1 c))
    !! batch = Some (selection_getRanges (doc w2))
  ∧ (∀ b, b ∈ Legacy._batchStack c → is_Some (Legacy._batchSelection c !! b))
  ∧ (∀ batchIndex w undoBatch first,
       Legacy._batchStack c
         !! Z.to_nat (Legacy.effective_index batchIndex (Legacy._batchStack c))
       = Some undoBatch →
       deltas (batch_at w undoBatch) !! 0%nat = Some first →
       (Legacy._doExecute batchIndex c w).1 = Normal tt
       ∧ Legacy.fired (Legacy._doExecute batchIndex c w).2.1
         = Legacy.fired c ++ [undoBatch]).
Proof.
  intros c. split_and!.
  - simpl. by rewrite <- app_assoc.
  - simpl. by rewrite lookup_insert_eq.
  - apply legacy_saved_ranges.
  - intros batchIndex w undoBatch first Hn Hfirst.
    assert (Legacy._batchStack c ≠ []) as Hne.
    { intros Hnil. by rewrite Hnil in Hn. }
    pose proof (legacy_effective_index_valid batchIndex _ Hne) as Hvalid.
    destruct (legacy_saved_ranges calls undoBatch) as [ranges Hranges].
    { by eapply list_elem_of_lookup_2. }
    fold c in Hranges. unfold Legacy._doExecute.
    rewrite splice_one_valid by done. rewrite Hn. simpl.
    unfold batch_at in *. simpl. rewrite Hfirst, Hranges. done.
Qed.

End LegacyProperties.

Section LegacyAtScenario.
#[local] Existing Instance FlatText.api.

(** X13, at the scenario: two batches on the stack, and 5 is no index of
    it. *)
Lemma legacy_step_takes_index_or_last_witness :
  Legacy._doExecute (Some 5)
    (Legacy.addBatch 2%nat Scenario.barofo
       (Legacy.addBatch 1%nat Scenario.barofo Legacy.constructor))
    Scenario.barofo
  = Legacy._doExecute None
      (Legacy.addBatch 2%nat Scenario.barofo
         (Legacy.addBatch 1%nat Scenario.barofo Legacy.constructor))
      Scenario.barofo.
Proof.
  apply (legacy_step_takes_index_or_last (Some 5)
           (Legacy.addBatch 2%nat Scenario.barofo
              (Legacy.addBatch 1%nat Scenario.barofo Legacy.constructor))
           Scenario.barofo).
  intros i [= <-]. simpl. lia.
Defined.

(** X14, at the scenario: batch 2 is on top and has a first delta. *)
Lemma legacy_addBatch_always_pushes_witness :
  (Legacy._doExecute None
     (Legacy.run_calls [Legacy.Call_addBatch 1%nat Scenario.barofo;
                        Legacy.Call_addBatch 2%nat Scenario.barofo]
                       Legacy.constructor)
     Scenario.barofo).1
  = Normal tt.
Proof.
  destruct (legacy_addBatch_always_pushes
              [Legacy.Call_addBatch 1%nat Scenario.barofo;
               Legacy.Call_addBatch 2%nat Scenario.barofo]
              0%nat Scenario.barofo Scenario.barofo) as (_ & _ & _ & Hstep).
  apply (Hstep None Scenario.barofo 2%nat Scenario.move_f); reflexivity.
Defined.

End LegacyAtScenario.

(** ** The originals of the reversion deltas *)

Section Filed.
Context `{EngineApi}.

Lemma forOf_invariant_in {A} (P : State → Prop) (l : list A) (body : A → Exec unit) :
  (∀ x s s', x ∈ l → body x s = (Normal tt, s') → P s → P s') →
  ∀ s s', forOf l body s = (Normal tt, s') → P s → P s'.
Proof.
  induction l as [|x l IH]; intros Hbody s s'; simpl.
  - by intros [= ->].
  - unfold bind. destruct (body x s) as [[[]|e] s1] eqn:Hx; [|done].
    intros Hl Hs. eapply IH; [|done|].
    + intros y t t' Hy. apply Hbody. by right.
    + eapply Hbody; [by left|done|done].
Qed.

Lemma filed_lookup (u : Delta) (updated : list Delta) (m : gmap DeltaId Delta) k :
  fold_left (λ m delta, <[did delta := u]> m) updated m !! k
  = if decide (k ∈ did <$> updated) then Some u else m !! k.
Proof.
  revert m. induction updated as [|d updated IH]; intros m; [done|].
  cbn [fold_left]. rewrite IH, fmap_cons.
  destruct (decide (k ∈ did <$> updated)) as [Hin|Hout].
  - by rewrite decide_True by (by right).
  - rewrite lookup_insert. destruct (decide (did d = k)) as [<-|Hne].
    + by rewrite decide_True by (by left).
    + rewrite decide_False; [done|].
      intros [?|?]%elem_of_cons; [congruence|done].
Qed.

(** X15.  When a step completes, every delta of its reversion batch has an
    entry in the map of original deltas of the command, and the entry is a
    delta of the batch the step reverted. *)
Theorem reversion_deltas_have_their_original_on_file (batch : option BatchRef)
    (s final : State) :
  _doExecute batch s = (Normal tt, final) →
  ∃ undoItem,
    undoItem_of batch (cmd s) = Some undoItem
    ∧ ∀ delta,
        delta ∈ deltas (batch_at (world final) (alloc_Batch (world s)).1) →
        ∃ undoDelta,
          undoDelta ∈ deltas (batch_at (world s) (item_batch undoItem))
          ∧ _originalDeltas (cmd final) !! did delta = Some undoDelta.
Proof.
  rewrite _doExecute_eq. destruct (undoItem_of batch (cmd s)) as [undoItem|]; [|done].
  cbv zeta. set (rb := (alloc_Batch (world s)).1). set (s0 := mkState _ _).
  assert (s0 = before_reversion batch s) as -> by done.
  set (undoDeltas := deltas (batch_at (world s) (item_batch undoItem))).
  unfold bind at 1.
  destruct (forOf (reverse undoDeltas) (revert_delta rb) (before_reversion batch s))
    as [[[]|e] s3] eqn:Hloop; [|done].
  unfold bind at 1. rewrite transform_selection_eq.
  destruct (deltas (batch_at (world s3) (item_batch undoItem)) !! 0%nat); [|done].
  unfold bind, modify_cmd. simpl. intros [= <-]. simpl.
  exists undoItem. split; [done|].
  pose (P := λ st : State,
    ∀ delta, delta ∈ deltas (batch_at (world st) rb) →
             ∃ undoDelta, undoDelta ∈ undoDeltas
                          ∧ _originalDeltas (cmd st) !! did delta = Some undoDelta).
  change (batch_at _ rb) with (batch_at (world s3) rb).
  apply (forOf_invariant_in P _ _) with (s := before_reversion batch s) in Hloop;
    [exact Hloop| |].
  - intros undoDelta s1 s2 Hin Hrun HP.
    rewrite elem_of_reverse in Hin.
    pose proof (revert_delta_eq rb undoDelta s1) as Heq. simpl in Heq.
    rewrite Hrun in Heq.
    destruct (postFix _ _ _ _) as [fixed|e] eqn:Hfix; [|done].
    injection Heq as ->. unfold P. simpl.
    destruct (fold_apply_delta rb fixed (world s1)) as (-> & _ & _). simpl.
    rewrite register_originals_map. apply postFix_same_ids in Hfix.
    intros delta Hdelta. rewrite filed_lookup.
    destruct (decide (did delta ∈ did <$> _)) as [Hnew|Hold]; [by exists undoDelta|].
    apply elem_of_app in Hdelta as [Hdelta|Hdelta]; [by apply HP|].
    destruct Hold. rewrite <- Hfix.
    apply list_elem_of_fmap in Hdelta as (fixed_delta & -> & Hd).
    apply list_elem_of_fmap. by exists fixed_delta.
  - unfold P. subst rb. rewrite before_reversion_batch. simpl.
    intros delta Hdelta. by apply elem_of_nil in Hdelta.
Qed.

End Filed.

(** X15, at the scenario: the first undo step completes. *)
Lemma reversion_deltas_have_their_original_on_file_witness :
  ∃ undoItem,
    undoItem_of None (cmd Scenario.two_steps) = Some undoItem
    ∧ ∀ delta,
        delta ∈ deltas (batch_at (world Scenario.one_step)
                                 (alloc_Batch (world Scenario.two_steps)).1) →
        ∃ undoDelta,
          undoDelta ∈ deltas (batch_at (world Scenario.two_steps) (item_batch undoItem))
          ∧ _originalDeltas (cmd Scenario.one_step) !! did delta = Some undoDelta.
Proof.
  apply (reversion_deltas_have_their_original_on_file None Scenario.two_steps
           Scenario.one_step).
  reflexivity.
Defined.
